(** * Fantasy Quest: the chat page of [src/pages/index.tsx]

    A shallow embedding of the React component [App]: its state hooks, its
    event handlers ([handleSendMessage], [handleNewMessage], [startGame]),
    the streaming callback [onStreamResult] handed to the window.ai
    extension, the mount effect [init], and the part of the render function
    that maps the transcript and the controls to markup.

    Conventions of the embedding.
    - JavaScript strings are modelled as [string]; [+] on strings is [+:+].
    - The component state is one record, [State].  Besides the four
      [useState] cells and the [aiRef] ref it carries the heap of
      [updatedMessages] variables (one per activation of
      [handleNewMessage], captured by that activation's callback) and logs
      of the calls made to the outside world (toasts, [getWindowAI],
      [generateText]).
    - An event handler reads the values of the render it was created in.
      The state updates of a player event are rendered synchronously when
      its handler returns, those of a streaming callback later; the
      transcript is the one cell a callback changes and a handler reads,
      so the state keeps the transcript of the last render, [rendered],
      beside the current one.  The input value and the game-started flag
      only change in player events, so their rendered value is the
      current one.  State setters are applied at once, which is sound
      because no handler reads a state cell after setting it. *)

From Stdlib Require Import QArith.
From stdpp Require Import base numbers strings list.


(** ** Data model (window.ai's [ChatMessage] and [MessageOutput]) *)

Inductive Role := system | user | assistant.

#[global] Instance Role_eq_dec : EqDecision Role.
Proof. solve_decision. Defined.

Record ChatMessage := { role : Role; content : string }.

#[global] Instance ChatMessage_eq_dec : EqDecision ChatMessage.
Proof. solve_decision. Defined.

Record MessageOutput := { message : ChatMessage }.

(** The extension object behind [aiRef.current]; the page only ever tests
    it for null and calls its [generateText]. *)
Inductive WindowAI := window_ai.

(** The object literal [streamingOptions]: its three fields.  The callback
    is a closure over the activation's [updatedMessages] variable; it is
    represented by the index of that variable in [closures]. *)
Record StreamingOptions := {
  temperature : Q;
  maxTokens : Z;
  onStreamResult_closure : nat
}.

(** One call [generateText({messages: ...}, streamingOptions)]. *)
Record Request := {
  input_messages : list ChatMessage;
  options : StreamingOptions
}.

(** Calls to react-hot-toast, in the order they are made. *)
Inductive Toast :=
| toast_success (text id : string)
| toast_custom_InstallationToast (id : string)
| toast_error (text : string).

#[global] Instance Toast_eq_dec : EqDecision Toast.
Proof. solve_decision. Defined.

Inductive JsError := TypeError | GenerateTextError.

(** ** Component state *)

Record State := {
  messages : list ChatMessage;            (* useState<ChatMessage[]>([]) *)
  inputValue : string;                    (* useState<string>(empty) *)
  loading : bool;                         (* useState<boolean>(false) *)
  isGameStarted : bool;                   (* useState<boolean>(false) *)
  aiRef : option WindowAI;                (* aiRef.current *)
  closures : list (list ChatMessage);     (* the [updatedMessages] variables *)
  requests : list Request;                (* generateText calls made so far *)
  toasts : list Toast;                    (* toast calls made so far *)
  probes : nat;                           (* getWindowAI calls made so far *)
  initPending : bool;                     (* [init] is suspended at its await *)
  rendered : list ChatMessage             (* [messages] of the last render *)
}.

(** How a piece of code ends: normally, or by a thrown exception, with the
    state it leaves behind. *)
Inductive Completion :=
| Returns (st : State)
| Throws (e : JsError) (st : State).

Definition state_of (c : Completion) : State :=
  match c with Returns st => st | Throws _ st => st end.

Definition setMessages (f : list ChatMessage → list ChatMessage) (st : State) : State :=
  {| messages := f (messages st); inputValue := inputValue st;
     loading := loading st; isGameStarted := isGameStarted st;
     aiRef := aiRef st; closures := closures st; requests := requests st;
     toasts := toasts st; probes := probes st; initPending := initPending st;
     rendered := rendered st |}.

Definition setInputValue (v : string) (st : State) : State :=
  {| messages := messages st; inputValue := v;
     loading := loading st; isGameStarted := isGameStarted st;
     aiRef := aiRef st; closures := closures st; requests := requests st;
     toasts := toasts st; probes := probes st; initPending := initPending st;
     rendered := rendered st |}.

Definition setLoading (b : bool) (st : State) : State :=
  {| messages := messages st; inputValue := inputValue st;
     loading := b; isGameStarted := isGameStarted st;
     aiRef := aiRef st; closures := closures st; requests := requests st;
     toasts := toasts st; probes := probes st; initPending := initPending st;
     rendered := rendered st |}.

Definition setIsGameStarted (b : bool) (st : State) : State :=
  {| messages := messages st; inputValue := inputValue st;
     loading := loading st; isGameStarted := b;
     aiRef := aiRef st; closures := closures st; requests := requests st;
     toasts := toasts st; probes := probes st; initPending := initPending st;
     rendered := rendered st |}.

Definition set_aiRef (r : option WindowAI) (st : State) : State :=
  {| messages := messages st; inputValue := inputValue st;
     loading := loading st; isGameStarted := isGameStarted st;
     aiRef := r; closures := closures st; requests := requests st;
     toasts := toasts st; probes := probes st; initPending := initPending st;
     rendered := rendered st |}.

Definition set_closures (f : list (list ChatMessage) → list (list ChatMessage))
    (st : State) : State :=
  {| messages := messages st; inputValue := inputValue st;
     loading := loading st; isGameStarted := isGameStarted st;
     aiRef := aiRef st; closures := f (closures st); requests := requests st;
     toasts := toasts st; probes := probes st; initPending := initPending st;
     rendered := rendered st |}.

(** [let updatedMessages = v]: a fresh variable, captured by the callback. *)
Definition new_closure (v : list ChatMessage) : State → State :=
  set_closures (λ cs, cs ++ [v]).

(** [updatedMessages = v] inside the callback that owns variable [k]. *)
Definition assign_closure (k : nat) (v : list ChatMessage) : State → State :=
  set_closures (λ cs, <[k := v]> cs).

Definition log_request (r : Request) (st : State) : State :=
  {| messages := messages st; inputValue := inputValue st;
     loading := loading st; isGameStarted := isGameStarted st;
     aiRef := aiRef st; closures := closures st; requests := requests st ++ [r];
     toasts := toasts st; probes := probes st; initPending := initPending st;
     rendered := rendered st |}.

Definition toast (t : Toast) (st : State) : State :=
  {| messages := messages st; inputValue := inputValue st;
     loading := loading st; isGameStarted := isGameStarted st;
     aiRef := aiRef st; closures := closures st; requests := requests st;
     toasts := toasts st ++ [t]; probes := probes st; initPending := initPending st;
     rendered := rendered st |}.

Definition set_probe (n : nat) (pending : bool) (st : State) : State :=
  {| messages := messages st; inputValue := inputValue st;
     loading := loading st; isGameStarted := isGameStarted st;
     aiRef := aiRef st; closures := closures st; requests := requests st;
     toasts := toasts st; probes := n; initPending := pending;
     rendered := rendered st |}.

(** React commits a render of the component: the handlers created by it,
    which are the ones the next player event runs, capture the current
    transcript. *)
Definition rerender (st : State) : State :=
  {| messages := messages st; inputValue := inputValue st;
     loading := loading st; isGameStarted := isGameStarted st;
     aiRef := aiRef st; closures := closures st; requests := requests st;
     toasts := toasts st; probes := probes st; initPending := initPending st;
     rendered := messages st |}.

(** ** Constants of the page *)

Definition dquote : string := String (Ascii.ascii_of_nat 34) EmptyString.
Definition nl : string := String (Ascii.ascii_of_nat 10) EmptyString.

(** The template literal [systemPrompt], character for character (the
    text is kept in UTF-8). *)
Definition systemPrompt : string :=
  nl +:+
  "      Start a text adventure game called " +:+ dquote +:+ "Fantasy Quest" +:+ dquote +:+ " in a fantasy world the player fights monsters, collects loot, levels up, with the ultimate goal of defeating the dragon king. " +:+
  "The player starts in the village of Greenhaven. " +:+
  "Allow the user to choose party members as well. " +:+
  "Fill in the details. " +:+
  "Please let the player know about the goal of defeating the dragon king at the beginning of the game. " +:+
  "I want to play this as a text adventure. " +:+
  "Show stats such as Health, Experience, Level, Gold, Weapons, Armor, Ring when appropiate, with the title “Current Stats:”. " +:+
  "The numerical stats like Health, Experience, Level, Gold should actually be computed correctly. " +:+
  "When the player levels up, you say a sentence saying that the player leveled up and to what level they leveled up to. " +:+
  "Give choices using a numbered list. " +:+
  "Only provide one list of choices at a time. " +:+
  "Don’t say anything after the numbered list of choices since it should be obvious to the player that they can choose a number. " +:+
  "Don’t use rolling of dice in the game. " +:+
  "The dragon king should be difficult to defeat. " +:+
  "If the player dies, the player respawns at the village of Greenhaven but with half their gold gone. " +:+
  "During the journey, the player can encounter monsters, and collect loot (e.g. " +:+
  "better weapons, armor, and rings). " +:+
  "Again, you are the game master, so you provide one list of choices and the player has to reply with their choice. " +:+
  "Please wait for the player to select a choice before providing more lists of choices. " +:+
  "Again, don’t choose the choice for the player; wait for the player to choose the choice. " +:+
  "The player is me. " +:+
  "The game only ends after the player defeats the dragon king. " +:+
  "Allow the player to view their inventory. " +:+
  "Don’t let the player teleport to other locations (e.g. " +:+
  "teleport directly to the battle with the dragon king). " +:+
  "The amount of Gold the player has cannot be negative; if the player does not have enough gold to buy and item, don’t allow the player to buy it. " +:+
  "Please do not respond for the player; you are the game master only." +:+
  nl +:+ "    ".

Definition installationToast : Toast :=
  toast_custom_InstallationToast "window-ai-not-detected".

Definition detectedToast : Toast :=
  toast_success "window.ai detected!" "window-ai-detected".

Definition streamingFailedToast : Toast :=
  toast_error "window.ai streaming completion failed.".

Definition generationFailedToast : Toast :=
  toast_error "window.ai generation completion failed.".

Definition systemMessage : ChatMessage :=
  {| role := system; content := systemPrompt |}.

Definition startGameMessage : ChatMessage :=
  {| role := user; content := "Start Game" |}.

(** ** Mount

    [useEffect(() => { ... init(); }, [])] runs when the component mounts:
    [init] calls [getWindowAI()] and suspends at the [await]. *)

Definition initialState : State :=
  {| messages := []; inputValue := EmptyString; loading := false;
     isGameStarted := false; aiRef := None; closures := []; requests := [];
     toasts := []; probes := 0; initPending := false; rendered := [] |}.

Definition mount : State := set_probe 1 true initialState.

(** The rest of [init], run when the promise of [getWindowAI()] settles
    with [probe]. *)
Definition init (probe : option WindowAI) (st : State) : State :=
  let st := set_probe (probes st) false (set_aiRef probe st) in
  match aiRef st with
  | Some _ => toast detectedToast st
  | None => toast installationToast st
  end.

(** ** The streaming callback *)

(** JavaScript truthiness of a [string | null]. *)
Definition truthy (s : option string) : bool :=
  match s with
  | None => false
  | Some s => if decide (s = EmptyString) then false else true
  end.

(** The two branches that compute the next value of [updatedMessages]. *)
Definition appendChunk (updatedMessages : list ChatMessage)
    (lastMessage : ChatMessage) (result : MessageOutput) : list ChatMessage :=
  if decide (role lastMessage = user) then
    updatedMessages ++ [ {| role := assistant; content := content (message result) |} ]
  else
    imap (λ index message0,
            if decide (index = length updatedMessages - 1) then
              {| role := role message0;
                 content := content message0 +:+ content (message result) |}
            else message0)
         updatedMessages.

(** [onStreamResult(result, error)] of the activation that owns variable
    [k].  An absent variable cannot be called back; reading [.role] of
    [undefined] (an empty [updatedMessages]) throws. *)
Definition onStreamResult (k : nat) (result : option MessageOutput)
    (error : option string) (st : State) : Completion :=
  let st := setLoading false st in
  if truthy error then
    Returns (toast streamingFailedToast st)
  else
    match result with
    | Some result =>
        match closures st !! k with
        | None => Returns st
        | Some updatedMessages =>
            match updatedMessages !! (length updatedMessages - 1) with
            | None => Throws TypeError st
            | Some lastMessage =>
                let updatedMessages' := appendChunk updatedMessages lastMessage result in
                let st := assign_closure k updatedMessages' st in
                Returns (setMessages (λ _, updatedMessages') st)
            end
        end
    | None => Returns st
    end.

(** ** Sending *)

Definition streamingOptions (k : nat) : StreamingOptions :=
  {| temperature := 0.7%Q; maxTokens := 1000%Z; onStreamResult_closure := k |}.

(** The body of the [try] block.  [throws] is the extension's behaviour
    on this call: whether the awaited [generateText] raises. *)
Definition try_generateText (throws : bool) (k : nat)
    (updatedMessages : list ChatMessage) (st : State) : Completion :=
  match aiRef st with
  | None => Throws TypeError st
  | Some _ =>
      let st := log_request {| input_messages := systemMessage :: updatedMessages;
                               options := streamingOptions k |} st in
      if throws then Throws GenerateTextError st else Returns st
  end.

(** Line 55 reads [messages] of the render the handler was created in;
    line 56 appends to the current state (functional update).  An
    activation runs inside a player event, and React renders the state
    updates of such an event synchronously when its handler returns,
    before any other event: that render is recorded with the updates. *)
Definition handleNewMessage (throws : bool) (messageInput : string)
    (st : State) : State :=
  let userMessage := {| role := user; content := messageInput |} in
  let k := length (closures st) in
  let updatedMessages := rendered st ++ [userMessage] in
  let st := new_closure updatedMessages st in
  let st := setMessages (λ prevMessages, prevMessages ++ [userMessage]) st in
  let st := setLoading true st in
  let st := setInputValue EmptyString st in
  let st := rerender st in
  match try_generateText throws k updatedMessages st with
  | Returns st => st
  | Throws _ st => toast generationFailedToast st
  end.

(** The submit handler; [event.preventDefault()] has no effect on the
    component state. *)
Definition handleSendMessage (throws : bool) (st : State) : State :=
  if decide (inputValue st = EmptyString) then st
  else
    match aiRef st with
    | None => toast installationToast st
    | Some _ => handleNewMessage throws (inputValue st) st
    end.

Definition startGame (throws : bool) (st : State) : State :=
  match aiRef st with
  | None => toast installationToast st
  | Some _ =>
      let st := handleNewMessage throws "Start Game" st in
      setIsGameStarted true st
  end.

(** ** Rendering

    The part of the returned markup that depends on the state: one element
    per transcript message, then either the chat form or the Start Game
    button. *)

Inductive Element :=
| div_empty                                  (* <div></div> *)
| div_message (key : nat) (className bubbleClassName text : string).

Definition renderMessage (index : nat) (message0 : ChatMessage) : Element :=
  if decide (index = 0) then div_empty
  else
    div_message index
      ("mb-2 " +:+
         (if decide (role message0 = user) then "text-right" else EmptyString))
      ("inline-block p-2 rounded-lg text-left " +:+
         (if decide (role message0 = user) then "bg-blue-500 text-white"
          else "bg-gray-300 text-black"))
      (content message0).

Inductive Control :=
| chat_form (value : string) (disabled : bool) (label : string)
| start_button.

Record View := { transcript : list Element; control : Control }.

Definition render (st : State) : View :=
  {| transcript := imap renderMessage (messages st);
     control :=
       if isGameStarted st then
         chat_form (inputValue st) (loading st)
                   (if loading st then "Sending..." else "Send")
       else start_button |}.

(** The text an element puts on screen. *)
Definition displayed (e : Element) : option string :=
  match e with
  | div_empty => None
  | div_message _ _ _ text => Some text
  end.

(** ** Events

    What can happen to a mounted page: the detection promise settles, the
    player edits the input, submits the form or clicks Start Game, the
    extension invokes a callback it was given, or React re-renders after a
    callback updated the state (which it does later, on its own schedule,
    so a player event can come first). *)

Inductive Event :=
| ev_probe (probe : option WindowAI)
| ev_change (value : string)
| ev_submit (throws : bool)
| ev_startGame (throws : bool)
| ev_stream (k : nat) (result : option MessageOutput) (error : option string)
| ev_render.

Definition react (ev : Event) (st : State) : State :=
  match ev with
  | ev_probe probe => init probe st
  | ev_change value => setInputValue value st
  | ev_submit throws => handleSendMessage throws st
  | ev_startGame throws => startGame throws st
  | ev_stream k result error => state_of (onStreamResult k result error st)
  | ev_render => rerender st
  end.

(** An event can only come from a control that is on screen, from the one
    pending promise, or for a callback that was passed to the extension.
    The [disabled] attribute of the submit button is not relied upon. *)
Definition enabled (ev : Event) (st : State) : bool :=
  match ev with
  | ev_probe _ => initPending st
  | ev_change _ | ev_submit _ =>
      match control (render st) with chat_form _ _ _ => true | start_button => false end
  | ev_startGame _ =>
      match control (render st) with start_button => true | chat_form _ _ _ => false end
  | ev_stream k _ _ =>
      bool_decide (k ∈ (onStreamResult_closure ∘ options) <$> requests st)
  | ev_render => true
  end.

Fixpoint run_from (st : State) (evs : list Event) : option State :=
  match evs with
  | [] => Some st
  | ev :: evs => if enabled ev st then run_from (react ev st) evs else None
  end.

Definition run (evs : list Event) : option State := run_from mount evs.

Definition reachable (st : State) : Prop := ∃ evs, run evs = Some st.

(** The results with which the detection promise settled during [evs]. *)
Definition probes_settled (evs : list Event) : list (option WindowAI) :=
  omap (λ ev, match ev with ev_probe probe => Some probe | _ => None end) evs.

(** ** Shapes of a transcript transition *)

(** [new] is [old] with one message added at the end. *)
Definition appends_one (old new : list ChatMessage) : Prop :=
  ∃ m, new = old ++ [m].

(** [new] is [old] with text added to the content of its final message,
    which is an assistant message. *)
Definition extends_final_assistant (old new : list ChatMessage) : Prop :=
  ∃ earlier text more,
    old = earlier ++ [ {| role := assistant; content := text |} ] ∧
    new = earlier ++ [ {| role := assistant; content := text +:+ more |} ].

(** Every message of [old] keeps its place and role in [new], and its
    content, except that the final message's content may have grown. *)
Definition earlier_preserved (old new : list ChatMessage) : Prop :=
  ∀ i m, i < length old - 1 → old !! i = Some m → new !! i = Some m.

Definition chat_role (m : ChatMessage) : Prop := role m = user ∨ role m = assistant.

(** ** Invariant of the reachable states *)

Definition closure_ok (updatedMessages : list ChatMessage) : Prop :=
  Forall chat_role updatedMessages ∧ head updatedMessages = Some startGameMessage.

Definition request_ok (st : State) (r : Request) : Prop :=
  ∃ sent k,
    input_messages r = systemMessage :: sent ∧ Forall chat_role sent ∧
    options r = streamingOptions k ∧ k < length (closures st).

Record Invariant (st : State) : Prop := {
  inv_roles : Forall chat_role (messages st);
  inv_head : ∀ m, head (messages st) = Some m → m = startGameMessage;
  inv_started : isGameStarted st = true → messages st ≠ [];
  inv_closures : Forall closure_ok (closures st);
  inv_requests : Forall (request_ok st) (requests st);
  inv_probes : probes st = 1;
  inv_pending : initPending st = true → aiRef st = None;
  inv_rendered : Forall chat_role (rendered st);
  inv_rendered_head : ∀ m, head (rendered st) = Some m → m = startGameMessage;
  inv_rendered_started : isGameStarted st = true → rendered st ≠ []
}.

(** ** Sample sessions, used to exercise the statements below *)

Definition chunk (text : string) : option MessageOutput :=
  Some {| message := {| role := assistant; content := text |} |}.

(** The extension is detected, the game is started and a first chunk of
    the game master's answer has arrived and is on screen. *)
Definition session_streaming : list Event :=
  [ev_probe (Some window_ai); ev_startGame false; ev_stream 0 (chunk "A") None;
   ev_render].

(** The player then sends [go] while the first answer is still streaming. *)
Definition session_overlapping : list Event :=
  session_streaming ++ [ev_change "go"; ev_submit false].

(** After the first chunk is on screen the player types [go]; a second
    chunk arrives and React has not re-rendered yet. *)
Definition session_stale : list Event :=
  session_streaming ++ [ev_change "go"; ev_stream 0 (chunk "B") None].

(** No extension: the probe settles with null. *)
Definition session_absent : list Event := [ev_probe None].

Definition state_after (evs : list Event) : State := default mount (run evs).

(** The late chunk of the first answer, arriving after the second send. *)
Definition late_chunk : Event := ev_stream 0 (chunk "B") None.

(** ** Bookkeeping of sends, requests and callbacks *)

(** What links the game-started flag, the request log and the working
    transcripts of the activations. *)
Record Bookkeeping (st : State) : Prop := {
  bk_not_started :
    isGameStarted st = false →
    messages st = [] ∧ closures st = [] ∧ requests st = [];
  bk_started : isGameStarted st = true → aiRef st ≠ None;
  bk_requested : isGameStarted st = true → requests st ≠ [];
  bk_rendered : isGameStarted st = false → rendered st = [];
  bk_length : length (requests st) = length (closures st);
  bk_callback :
    ∀ i r, requests st !! i = Some r → onStreamResult_closure (options r) = i;
  bk_prefix :
    ∀ i r updatedMessages,
      requests st !! i = Some r → closures st !! i = Some updatedMessages →
      ∃ history messageInput,
        input_messages r
        = systemMessage :: history ++ [ {| role := user; content := messageInput |} ] ∧
        (history ++ [ {| role := user; content := messageInput |} ])
          `prefix_of` updatedMessages
}.

(** The texts of the chunks that [evs] delivers to the callback of
    activation [k]: invocations with a result and without error. *)
Definition chunks_for (k : nat) (evs : list Event) : list string :=
  omap (λ ev,
          match ev with
          | ev_stream k' (Some result) error =>
              if decide (k' = k) then
                if truthy error then None else Some (content (message result))
              else None
          | _ => None
          end) evs.

(** * Properties *)

(** ** Lists: the last element and the indexed map of the callback *)

Lemma lookup_last_snoc {A} (l : list A) (x : A) :
  l !! (length l - 1) = Some x → ∃ earlier, l = earlier ++ [x].
Proof.
  destruct l as [|y l] using rev_ind; [done|].
  rewrite length_app; simpl.
  replace (length l + 1 - 1) with (length l + 0) by lia.
  rewrite lookup_app_r, Nat.add_0_r, Nat.sub_diag by lia; simpl.
  intros [= ->]. by exists l.
Qed.

Lemma lookup_snoc_last {A} (earlier : list A) (x : A) :
  (earlier ++ [x]) !! (length (earlier ++ [x]) - 1) = Some x.
Proof.
  rewrite length_app; simpl.
  replace (length earlier + 1 - 1) with (length earlier + 0) by lia.
  by rewrite lookup_app_r, Nat.add_0_r, Nat.sub_diag by lia.
Qed.

Lemma imap_unchanged {A} (f : nat → A → A) (l : list A) :
  (∀ i y, l !! i = Some y → f i y = y) → imap f l = l.
Proof.
  intros Hf. transitivity (imap (const id) l).
  - by apply imap_ext.
  - by rewrite imap_const, list_fmap_id.
Qed.

Lemma imap_update_last {A} (f : A → A) (earlier : list A) (x : A) :
  imap (λ index y,
          if decide (index = length (earlier ++ [x]) - 1) then f y else y)
       (earlier ++ [x])
  = earlier ++ [f x].
Proof.
  rewrite imap_app. f_equal.
  - apply imap_unchanged. intros i y Hi. apply lookup_lt_Some in Hi.
    rewrite length_app; simpl. case_decide; [lia|done].
  - simpl. rewrite length_app; simpl. case_decide; [done|lia].
Qed.

Section appendChunk.
Variables (earlier : list ChatMessage) (lastMessage : ChatMessage).
Variable result : MessageOutput.

Lemma appendChunk_user :
  role lastMessage = user →
  appendChunk (earlier ++ [lastMessage]) lastMessage result
  = (earlier ++ [lastMessage])
      ++ [ {| role := assistant; content := content (message result) |} ].
Proof. intros Hr. unfold appendChunk. by rewrite decide_True. Qed.

Lemma appendChunk_not_user :
  role lastMessage ≠ user →
  appendChunk (earlier ++ [lastMessage]) lastMessage result
  = earlier ++ [ {| role := role lastMessage;
                   content := content lastMessage +:+ content (message result) |} ].
Proof.
  intros Hr. unfold appendChunk. rewrite decide_False by done.
  apply (imap_update_last
           (λ m, {| role := role m;
                    content := content m +:+ content (message result) |})).
Qed.
End appendChunk.

(** ** Runs and reachable states *)

Lemma run_from_app st evs evs' :
  run_from st (evs ++ evs') = run_from st evs ≫= λ st', run_from st' evs'.
Proof.
  revert st. induction evs as [|ev evs IH]; intros st; simpl; [done|].
  destruct (enabled ev st); [apply IH|done].
Qed.

Lemma run_snoc evs ev st :
  run evs = Some st → enabled ev st = true →
  run (evs ++ [ev]) = Some (react ev st).
Proof.
  unfold run. intros Hrun Hen. rewrite run_from_app, Hrun; simpl. by rewrite Hen.
Qed.

Lemma run_snoc_inv evs ev st' :
  run (evs ++ [ev]) = Some st' →
  ∃ st, run evs = Some st ∧ enabled ev st = true ∧ st' = react ev st.
Proof.
  unfold run. rewrite run_from_app.
  destruct (run_from mount evs) as [st|]; simpl; [|done].
  destruct (enabled ev st) eqn:Hen; [|done].
  intros [= <-]. by exists st.
Qed.

Lemma reachable_mount : reachable mount.
Proof. by exists []. Qed.

Lemma reachable_react st ev :
  reachable st → enabled ev st = true → reachable (react ev st).
Proof. intros [evs Hrun] Hen. exists (evs ++ [ev]). by apply run_snoc. Qed.

(** Induction over the events that led to a state. *)
Lemma run_ind (P : list Event → State → Prop) :
  P [] mount →
  (∀ evs st ev, run evs = Some st → P evs st → enabled ev st = true →
                P (evs ++ [ev]) (react ev st)) →
  ∀ evs st, run evs = Some st → P evs st.
Proof.
  intros Hmount Hstep evs.
  induction evs as [|ev evs IH] using rev_ind; intros st Hrun.
  - by injection Hrun as <-.
  - apply run_snoc_inv in Hrun as (st0 & Hrun & Hen & ->). by apply Hstep; [|apply IH|].
Qed.

Lemma reachable_ind (P : State → Prop) :
  P mount →
  (∀ st ev, reachable st → P st → enabled ev st = true → P (react ev st)) →
  ∀ st, reachable st → P st.
Proof.
  intros Hmount Hstep st [evs Hrun].
  apply (run_ind (λ _ st, P st)) with (evs := evs); [done| |done].
  intros evs0 st0 ev Hrun0 IH Hen. apply Hstep; [by exists evs0|done|done].
Qed.

(** ** What each handler does to the state *)

Section handleNewMessage.
Variables (throws : bool) (messageInput : string) (st : State).

Abbreviation userMessage := {| role := user; content := messageInput |}.
Abbreviation st' := (handleNewMessage throws messageInput st).

Lemma handleNewMessage_messages : messages st' = messages st ++ [userMessage].
Proof.
  unfold handleNewMessage, try_generateText; simpl.
  by destruct (aiRef st), throws.
Qed.

Lemma handleNewMessage_rendered : rendered st' = messages st ++ [userMessage].
Proof.
  unfold handleNewMessage, try_generateText; simpl.
  by destruct (aiRef st), throws.
Qed.

Lemma handleNewMessage_closures :
  closures st' = closures st ++ [rendered st ++ [userMessage]].
Proof.
  unfold handleNewMessage, try_generateText; simpl.
  by destruct (aiRef st), throws.
Qed.

Lemma handleNewMessage_requests :
  requests st' =
  match aiRef st with
  | Some _ =>
      requests st ++
        [ {| input_messages := systemMessage :: rendered st ++ [userMessage];
             options := streamingOptions (length (closures st)) |} ]
  | None => requests st
  end.
Proof.
  unfold handleNewMessage, try_generateText; simpl.
  by destruct (aiRef st), throws.
Qed.

Lemma handleNewMessage_toasts :
  toasts st' =
  match aiRef st with
  | Some _ => if throws then toasts st ++ [generationFailedToast] else toasts st
  | None => toasts st ++ [generationFailedToast]
  end.
Proof.
  unfold handleNewMessage, try_generateText; simpl.
  by destruct (aiRef st), throws.
Qed.

Lemma handleNewMessage_frame :
  aiRef st' = aiRef st ∧ isGameStarted st' = isGameStarted st ∧
  probes st' = probes st ∧ initPending st' = initPending st ∧
  loading st' = true ∧ inputValue st' = EmptyString.
Proof.
  unfold handleNewMessage, try_generateText; simpl.
  destruct (aiRef st) eqn:Hai, throws; simpl; rewrite ?Hai; done.
Qed.
End handleNewMessage.

Lemma onStreamResult_error st k result error :
  truthy error = true →
  onStreamResult k result error st
  = Returns (toast streamingFailedToast (setLoading false st)).
Proof. intros He. unfold onStreamResult. by rewrite He. Qed.

Lemma onStreamResult_chunk st k result error earlier lastMessage :
  truthy error = false →
  closures st !! k = Some (earlier ++ [lastMessage]) →
  let updatedMessages' := appendChunk (earlier ++ [lastMessage]) lastMessage result in
  onStreamResult k (Some result) error st
  = Returns (setMessages (λ _, updatedMessages')
               (assign_closure k updatedMessages' (setLoading false st))).
Proof.
  intros He Hk. unfold onStreamResult. rewrite He; simpl. rewrite Hk.
  by rewrite lookup_snoc_last.
Qed.

Lemma onStreamResult_no_result st k error :
  truthy error = false →
  onStreamResult k None error st = Returns (setLoading false st).
Proof. intros He. unfold onStreamResult. by rewrite He. Qed.

(** A callback never issues a request, whatever it is called with. *)
Lemma onStreamResult_requests st k result error :
  requests (state_of (onStreamResult k result error st)) = requests st.
Proof.
  unfold onStreamResult. destruct (truthy error); [done|].
  destruct result as [result|]; [|done]. simpl.
  destruct (closures st !! k) as [um|]; [|done].
  by destruct (um !! (length um - 1)).
Qed.

(** ** The invariant holds in every reachable state *)

Lemma chat_role_user s : chat_role {| role := user; content := s |}.
Proof. by left. Qed.

Lemma chat_role_assistant s : chat_role {| role := assistant; content := s |}.
Proof. by right. Qed.

#[local] Hint Resolve chat_role_user chat_role_assistant : core.

Lemma request_ok_mono st st' r :
  length (closures st) ≤ length (closures st') → request_ok st r → request_ok st' r.
Proof.
  intros Hle (sent & k & ? & ? & ? & ?). exists sent, k. repeat split; [done..|lia].
Qed.

Lemma Invariant_mount : Invariant mount.
Proof. by split; simpl; try constructor. Qed.

Lemma head_snoc {A} (l : list A) (x y : A) :
  (∀ m, head l = Some m → m = y) → (l = [] → x = y) → head (l ++ [x]) = Some y.
Proof.
  destruct l as [|z l]; simpl; intros Hh Hx.
  - by rewrite Hx.
  - by rewrite (Hh z).
Qed.

Lemma closure_ok_snoc (updatedMessages : list ChatMessage) :
  closure_ok updatedMessages →
  ∃ earlier lastMessage, updatedMessages = earlier ++ [lastMessage].
Proof.
  intros [_ Hhead].
  destruct updatedMessages as [|lastMessage earlier _] using rev_ind; [done|].
  by exists earlier, lastMessage.
Qed.

Lemma closure_ok_appendChunk earlier lastMessage result :
  closure_ok (earlier ++ [lastMessage]) →
  closure_ok (appendChunk (earlier ++ [lastMessage]) lastMessage result).
Proof.
  intros [Hroles Hhead].
  destruct (decide (role lastMessage = user)) as [Hu|Hu].
  - rewrite appendChunk_user by done. split.
    + apply Forall_app; split; [done|]. by constructor.
    + apply head_snoc; [|destruct earlier; simpl; done].
      intros m Hm. rewrite Hm in Hhead. by injection Hhead.
  - rewrite appendChunk_not_user by done.
    apply Forall_app in Hroles as [Hearlier Hlast].
    apply (proj1 (Forall_singleton _ _)) in Hlast. split.
    + apply Forall_app; split; [done|]. apply Forall_singleton. exact Hlast.
    + destruct earlier as [|m earlier]; [|done].
      simpl in Hhead. injection Hhead as ->. by destruct Hu.
Qed.

Lemma Invariant_handleNewMessage throws messageInput st :
  Invariant st →
  (messages st = [] ∨ rendered st = [] → messageInput = "Start Game") →
  Invariant (handleNewMessage throws messageInput st).
Proof.
  intros [Hroles Hhead Hstarted Hclosures Hrequests Hprobes Hpending
          Hrroles Hrhead Hrstarted] Hfirst.
  destruct (handleNewMessage_frame throws messageInput st)
    as (Hai & Hgs & Hpr & Hpe & _ & _).
  assert (∀ l, Forall chat_role l → (∀ m, head l = Some m → m = startGameMessage) →
               (l = [] → messageInput = "Start Game") →
               closure_ok (l ++ [ {| role := user; content := messageInput |} ]))
    as Hsnoc.
  { intros l Hl Hh Hnil. split.
    - apply Forall_app; split; [done|]. by constructor.
    - apply head_snoc; [done|]. intros ->. unfold startGameMessage.
      by rewrite (Hnil eq_refl). }
  pose proof (Hsnoc (messages st) Hroles Hhead (λ H, Hfirst (or_introl H))) as Hnew.
  pose proof (Hsnoc (rendered st) Hrroles Hrhead (λ H, Hfirst (or_intror H))) as Hsent.
  split.
  - rewrite handleNewMessage_messages. apply Hnew.
  - rewrite handleNewMessage_messages. intros m Hm.
    destruct Hnew as [_ Hh]. rewrite Hh in Hm. by injection Hm.
  - rewrite handleNewMessage_messages. intros _. by destruct (messages st).
  - rewrite handleNewMessage_closures. apply Forall_app; split; [done|].
    by constructor.
  - assert (Forall (request_ok (handleNewMessage throws messageInput st)) (requests st))
      as Hold.
    { eapply Forall_impl; [exact Hrequests|]. intros r. apply request_ok_mono.
      rewrite handleNewMessage_closures, length_app. lia. }
    rewrite handleNewMessage_requests. destruct (aiRef st); [|done].
    apply Forall_app; split; [done|]. constructor; [|done].
    eexists _, _. split; [done|]. split; [apply Hsent|]. split; [done|].
    rewrite handleNewMessage_closures, length_app. simpl. lia.
  - by rewrite Hpr.
  - by rewrite Hpe, Hai.
  - rewrite handleNewMessage_rendered. apply Hnew.
  - rewrite handleNewMessage_rendered. intros m Hm.
    destruct Hnew as [_ Hh]. rewrite Hh in Hm. by injection Hm.
  - rewrite handleNewMessage_rendered. intros _. by destruct (messages st).
Qed.

Lemma Invariant_onStreamResult k result error st :
  Invariant st → Invariant (state_of (onStreamResult k result error st)).
Proof.
  intros Hinv. destruct (truthy error) eqn:He.
  { rewrite onStreamResult_error by done. by destruct Hinv. }
  destruct result as [result|]; [|rewrite onStreamResult_no_result by done; by destruct Hinv].
  destruct (closures st !! k) as [updatedMessages|] eqn:Hk.
  2: { unfold onStreamResult. rewrite He; simpl. rewrite Hk. by destruct Hinv. }
  destruct Hinv as [Hroles Hhead Hstarted Hclosures Hrequests Hprobes Hpending
                    Hrroles Hrhead Hrstarted].
  assert (closure_ok updatedMessages) as Hok.
  { eapply Forall_lookup_1; [exact Hclosures|exact Hk]. }
  destruct (closure_ok_snoc _ Hok) as (earlier & lastMessage & ->).
  rewrite (onStreamResult_chunk st k result error earlier lastMessage) by done.
  pose proof (closure_ok_appendChunk earlier lastMessage result Hok) as [Hr Hh].
  split; simpl; try done.
  - intros m Hm. rewrite Hh in Hm. by injection Hm.
  - intros _ Hnil. by rewrite Hnil in Hh.
  - by apply Forall_insert.
  - eapply Forall_impl; [exact Hrequests|]. intros r. apply request_ok_mono.
    simpl. by rewrite length_insert.
Qed.

Lemma Invariant_react ev st :
  Invariant st → enabled ev st = true → Invariant (react ev st).
Proof.
  intros Hinv Hen. destruct ev as [probe|value|throws|throws|k result error|]; simpl.
  - destruct Hinv. unfold init; simpl. by destruct probe.
  - by destruct Hinv.
  - unfold handleSendMessage. case_decide; [done|].
    destruct (aiRef st); [|by destruct Hinv].
    apply Invariant_handleNewMessage; [done|].
    simpl in Hen. destruct (isGameStarted st) eqn:Hgs; [|done].
    intros [Hnil|Hnil].
    + by destruct (inv_started st Hinv Hgs).
    + by destruct (inv_rendered_started st Hinv Hgs).
  - unfold startGame. destruct (aiRef st); [|by destruct Hinv].
    pose proof (Invariant_handleNewMessage throws "Start Game" st Hinv (λ _, eq_refl))
      as [Hroles Hhead _ Hclosures Hrequests Hprobes Hpending Hrroles Hrhead _].
    split; cbn [messages rendered isGameStarted aiRef closures requests probes
                initPending setIsGameStarted]; try done.
    + intros _. rewrite handleNewMessage_messages. by destruct (messages st).
    + intros _. rewrite handleNewMessage_rendered. by destruct (messages st).
  - by apply Invariant_onStreamResult.
  - by destruct Hinv.
Qed.

Lemma reachable_Invariant st : reachable st → Invariant st.
Proof.
  revert st. apply reachable_ind; [apply Invariant_mount|].
  intros st ev _ Hinv Hen. by apply Invariant_react.
Qed.

(** The transcript after a callback that runs on a working transcript equal
    to the current transcript. *)
Lemma stream_step_cases st k result error :
  reachable st →
  (truthy error = false → is_Some result → closures st !! k = Some (messages st)) →
  let new := messages (state_of (onStreamResult k result error st)) in
  new = messages st ∨
  (∃ text, new = messages st ++ [ {| role := assistant; content := text |} ]) ∨
  (∃ earlier text more,
     messages st = earlier ++ [ {| role := assistant; content := text |} ] ∧
     new = earlier ++ [ {| role := assistant; content := text +:+ more |} ]).
Proof.
  intros Hreach Hown. pose proof (reachable_Invariant st Hreach) as Hinv.
  destruct (truthy error) eqn:He.
  { left. by rewrite onStreamResult_error. }
  destruct result as [result|].
  2: { left. by rewrite onStreamResult_no_result. }
  pose proof (Hown eq_refl (mk_is_Some _ _ eq_refl)) as Hk.
  assert (closure_ok (messages st)) as Hok.
  { eapply Forall_lookup_1; [apply (inv_closures st Hinv)|exact Hk]. }
  destruct (closure_ok_snoc _ Hok) as (earlier & lastMessage & Hsplit).
  rewrite Hsplit in Hk, Hok |- *.
  rewrite (onStreamResult_chunk st k result error earlier lastMessage) by done.
  simpl. destruct (decide (role lastMessage = user)) as [Hu|Hu].
  - right; left. rewrite appendChunk_user by done. by eexists.
  - right; right. rewrite appendChunk_not_user by done.
    destruct Hok as [Hroles _]. apply Forall_app in Hroles as [_ Hlast].
    apply (proj1 (Forall_singleton _ _)) in Hlast as [Hrole|Hrole]; [done|].
    exists earlier, (content lastMessage), (content (message result)).
    rewrite Hrole. split; [|done]. destruct lastMessage as [r c]. simpl in *.
    by rewrite Hrole.
Qed.

(** ** The constants and the sample sessions evaluate *)

Example systemPrompt_length : String.length systemPrompt = 2036.
Proof. vm_compute. reflexivity. Qed.

Example messages_after_overlapping :
  messages (state_after session_overlapping)
  = [ startGameMessage;
      {| role := assistant; content := "A" |};
      {| role := user; content := "go" |} ].
Proof. vm_compute. reflexivity. Qed.

Lemma run_state_after_streaming :
  run session_streaming = Some (state_after session_streaming).
Proof. vm_compute. reflexivity. Qed.

Lemma run_state_after_overlapping :
  run session_overlapping = Some (state_after session_overlapping).
Proof. vm_compute. reflexivity. Qed.

Lemma run_state_after_stale :
  run session_stale = Some (state_after session_stale).
Proof. vm_compute. reflexivity. Qed.

Lemma run_state_after_absent :
  run session_absent = Some (state_after session_absent).
Proof. vm_compute. reflexivity. Qed.

(** ** C1: one request per send *)

(** C1.  The code departs from the claim.  The first chunk is on screen
    and the player has typed [go]; a second chunk makes the transcript
    [Start Game, AB]; the form, whose button the last render left
    enabled, is submitted before React re-renders.  The one request that
    is issued carries the system prompt, then the transcript of the last
    render, [Start Game, A], then the new user message: not the entire
    prior transcript.  The same handler appends the user message to the
    current transcript. *)
Theorem stale_render_sends_stale_transcript :
  ∃ st,
    run session_stale = Some st ∧
    enabled (ev_submit false) st = true ∧
    loading (state_after session_streaming) = false ∧
    inputValue st = "go" ∧
    messages st = [ startGameMessage; {| role := assistant; content := "AB" |} ] ∧
    rendered st = [ startGameMessage; {| role := assistant; content := "A" |} ] ∧
    requests (react (ev_submit false) st)
    = requests st ++
        [ {| input_messages :=
               [ {| role := system; content := systemPrompt |};
                 startGameMessage;
                 {| role := assistant; content := "A" |};
                 {| role := user; content := "go" |} ];
             options := streamingOptions 1 |} ] ∧
    requests (react (ev_submit false) st)
    ≠ requests st ++
        [ {| input_messages :=
               {| role := system; content := systemPrompt |}
                 :: messages st ++ [ {| role := user; content := "go" |} ];
             options := streamingOptions 1 |} ] ∧
    messages (react (ev_submit false) st)
    = [ startGameMessage; {| role := assistant; content := "AB" |};
        {| role := user; content := "go" |} ].
Proof.
  exists (state_after session_stale).
  split; [apply run_state_after_stale|].
  do 5 (split; [vm_compute; reflexivity|]).
  assert (requests (react (ev_submit false) (state_after session_stale))
          = requests (state_after session_stale) ++
              [ {| input_messages :=
                     [ {| role := system; content := systemPrompt |};
                       startGameMessage;
                       {| role := assistant; content := "A" |};
                       {| role := user; content := "go" |} ];
                   options := streamingOptions 1 |} ]) as Hsent.
  { vm_compute. reflexivity. }
  split; [exact Hsent|]. split; [|vm_compute; reflexivity].
  rewrite Hsent. intros Heq. apply app_inv_head in Heq.
  assert (messages (state_after session_stale)
          = [ startGameMessage; {| role := assistant; content := "AB" |} ]) as Hm.
  { vm_compute. reflexivity. }
  rewrite Hm in Heq. discriminate Heq.
Qed.

(** ** C2: the streaming callback *)

(** C2.  A callback invocation without error that carries a result, in any
    reachable state: the working transcript [updatedMessages] of the
    callback ends in a user or an assistant message.  If it is a user
    message, the new working transcript is the old one followed by a new
    assistant message holding exactly the chunk; otherwise it is the old
    one with the chunk appended to the content of its last, assistant,
    message, every other message unchanged.  The callback returns
    normally and stores the new working transcript as the transcript;
    the working transcripts of other callbacks are untouched. *)
Theorem onStreamResult_appends_or_extends
    (st : State) (k : nat) (result : MessageOutput) (error : option string)
    (updatedMessages : list ChatMessage) :
  reachable st →
  truthy error = false →
  closures st !! k = Some updatedMessages →
  ∃ earlier lastMessage st',
    updatedMessages = earlier ++ [lastMessage] ∧
    onStreamResult k (Some result) error st = Returns st' ∧
    let updatedMessages' :=
      if decide (role lastMessage = user) then
        updatedMessages
          ++ [ {| role := assistant; content := content (message result) |} ]
      else
        earlier
          ++ [ {| role := assistant;
                  content := content lastMessage +:+ content (message result) |} ] in
    (role lastMessage = user ∨ role lastMessage = assistant) ∧
    closures st' !! k = Some updatedMessages' ∧
    messages st' = updatedMessages' ∧
    (∀ j, j ≠ k → closures st' !! j = closures st !! j).
Proof.
  intros Hreach He Hk.
  pose proof (reachable_Invariant st Hreach) as Hinv.
  assert (closure_ok updatedMessages) as Hok.
  { eapply Forall_lookup_1; [apply (inv_closures st Hinv)|exact Hk]. }
  destruct (closure_ok_snoc _ Hok) as (earlier & lastMessage & ->).
  exists earlier, lastMessage. eexists. split; [done|].
  split; [by apply onStreamResult_chunk|].
  assert (chat_role lastMessage) as Hrole.
  { destruct Hok as [Hroles _]. apply Forall_app in Hroles as [_ Hlast].
    by apply (proj1 (Forall_singleton _ _)) in Hlast. }
  assert (appendChunk (earlier ++ [lastMessage]) lastMessage result
          = if decide (role lastMessage = user) then
              (earlier ++ [lastMessage])
                ++ [ {| role := assistant; content := content (message result) |} ]
            else
              earlier
                ++ [ {| role := assistant;
                        content := content lastMessage +:+ content (message result) |} ])
    as Hnew.
  { case_decide as Hu.
    - by apply appendChunk_user.
    - rewrite appendChunk_not_user by done.
      destruct Hrole as [Hrole|Hrole]; [done|]. by rewrite Hrole. }
  simpl. rewrite <- Hnew. split; [exact Hrole|]. split.
  - apply list_lookup_insert_eq. by apply lookup_lt_Some in Hk.
  - split; [done|]. intros j Hj. by apply list_lookup_insert_ne.
Qed.

Lemma onStreamResult_appends_or_extends_witness :
  reachable (state_after session_overlapping) ∧
  ∃ st', onStreamResult 0 (chunk "B") None (state_after session_overlapping)
         = Returns st' ∧
         closures st' !! 0
         = Some [startGameMessage; {| role := assistant; content := "AB" |}].
Proof.
  assert (reachable (state_after session_overlapping)) as Hreach.
  { exists session_overlapping. apply run_state_after_overlapping. }
  split; [exact Hreach|].
  assert (closures (state_after session_overlapping) !! 0
          = Some [startGameMessage; {| role := assistant; content := "A" |}])
    as Hk.
  { vm_compute. reflexivity. }
  destruct (onStreamResult_appends_or_extends
              (state_after session_overlapping) 0
              {| message := {| role := assistant; content := "B" |} |} None
              [startGameMessage; {| role := assistant; content := "A" |}]
              Hreach eq_refl Hk)
    as (earlier & lastMessage & st' & Hsplit & Hreturns & Hst').
  exists st'. split; [exact Hreturns|].
  change [startGameMessage; {| role := assistant; content := "A" |}]
    with ([startGameMessage] ++ [ {| role := assistant; content := "A" |} ])
    in Hsplit.
  apply app_inj_tail in Hsplit as [<- <-].
  exact (proj1 (proj2 Hst')).
Defined.

(** ** C3: how the transcript changes *)

Lemma appends_one_preserved old new : appends_one old new → earlier_preserved old new.
Proof.
  intros [m ->] i m' Hi Hm'. by apply lookup_app_l_Some.
Qed.

Lemma extends_final_assistant_preserved old new :
  extends_final_assistant old new → earlier_preserved old new.
Proof.
  intros (earlier & text & more & -> & ->) i m Hi.
  rewrite length_app in Hi; simpl in Hi.
  rewrite !lookup_app_l by lia. done.
Qed.

(** C3.  The code departs from the claim.  The first chunk of the first
    answer has cleared [loading], so the submit button is enabled again;
    the player sends [go] while that answer is still streaming; the next
    chunk of the first answer then replaces the transcript by the first
    callback's own working copy, which drops the user message [go] and
    changes the message before it: the transition neither appends a
    message nor extends the final assistant message, and an earlier
    message is not preserved. *)
Lemma overlapping_stream_drops_message :
  ∃ st,
    run session_overlapping = Some st ∧
    enabled late_chunk st = true ∧
    loading (state_after session_streaming) = false ∧
    messages st = [ startGameMessage;
                    {| role := assistant; content := "A" |};
                    {| role := user; content := "go" |} ] ∧
    messages (react late_chunk st)
    = [ startGameMessage; {| role := assistant; content := "AB" |} ] ∧
    ¬ (messages (react late_chunk st) = messages st ∨
       appends_one (messages st) (messages (react late_chunk st)) ∨
       extends_final_assistant (messages st) (messages (react late_chunk st))) ∧
    ¬ earlier_preserved (messages st) (messages (react late_chunk st)).
Proof.
  exists (state_after session_overlapping).
  split; [apply run_state_after_overlapping|].
  split; [vm_compute; reflexivity|].
  split; [vm_compute; reflexivity|].
  assert (messages (state_after session_overlapping)
          = [ startGameMessage;
              {| role := assistant; content := "A" |};
              {| role := user; content := "go" |} ]) as Hold.
  { vm_compute. reflexivity. }
  assert (messages (react late_chunk (state_after session_overlapping))
          = [ startGameMessage; {| role := assistant; content := "AB" |} ]) as Hnew.
  { vm_compute. reflexivity. }
  rewrite Hold, Hnew. repeat split.
  - intros [Heq|[[m Happ]|(earlier & text & more & Hsplit & _)]].
    + discriminate Heq.
    + discriminate Happ.
    + change [ startGameMessage;
               {| role := assistant; content := "A" |};
               {| role := user; content := "go" |} ]
        with ([ startGameMessage; {| role := assistant; content := "A" |} ]
                ++ [ {| role := user; content := "go" |} ]) in Hsplit.
      apply app_inj_tail in Hsplit as [_ Hlast]. discriminate Hlast.
  - intros Hpres.
    specialize (Hpres 1 {| role := assistant; content := "A" |}).
    simpl in Hpres. specialize (Hpres ltac:(lia) eq_refl). discriminate Hpres.
Qed.

(** X16.  In every reachable state, every event leaves the transcript as
    it is, appends one message to it, or extends the content of its final
    assistant message, and every earlier message is preserved, provided
    that a callback which carries a result and no error runs on a working
    transcript that equals the current transcript. *)
Theorem transcript_append_only (st : State) (ev : Event) :
  reachable st →
  enabled ev st = true →
  (∀ k result error, ev = ev_stream k (Some result) error →
                     truthy error = false →
                     closures st !! k = Some (messages st)) →
  (messages (react ev st) = messages st ∨
   appends_one (messages st) (messages (react ev st)) ∨
   extends_final_assistant (messages st) (messages (react ev st))) ∧
  earlier_preserved (messages st) (messages (react ev st)).
Proof.
  intros Hreach Hen Hown.
  assert (messages (react ev st) = messages st ∨
          appends_one (messages st) (messages (react ev st)) ∨
          extends_final_assistant (messages st) (messages (react ev st))) as Hstep.
  { destruct ev as [probe|value|throws|throws|k result error|]; simpl.
    - left. unfold init; simpl. by destruct probe.
    - by left.
    - unfold handleSendMessage. case_decide; [by left|].
      destruct (aiRef st); [|by left].
      right; left. rewrite handleNewMessage_messages. by eexists.
    - unfold startGame. destruct (aiRef st); [|by left].
      right; left. simpl. rewrite handleNewMessage_messages. by eexists.
    - destruct (stream_step_cases st k result error Hreach)
        as [Hsame|[(chunk0 & Hnew)|(earlier & text & more & Hold & Hnew)]].
      + intros He [result0 ->]. by apply (Hown k result0 error).
      + by left.
      + right; left. by exists {| role := assistant; content := chunk0 |}.
      + right; right. by exists earlier, text, more.
    - by left. }
  split; [exact Hstep|].
  destruct Hstep as [->|[Happ|Hext]].
  - by intros i m _ Hm.
  - by apply appends_one_preserved.
  - by apply extends_final_assistant_preserved.
Qed.

Lemma transcript_append_only_witness :
  reachable (state_after session_streaming) ∧
  enabled late_chunk (state_after session_streaming) = true ∧
  closures (state_after session_streaming) !! 0
  = Some (messages (state_after session_streaming)) ∧
  extends_final_assistant
    [ startGameMessage; {| role := assistant; content := "A" |} ]
    (messages (react late_chunk (state_after session_streaming))) ∧
  earlier_preserved (messages (state_after session_streaming))
    (messages (react late_chunk (state_after session_streaming))).
Proof.
  assert (reachable (state_after session_streaming)) as Hreach.
  { exists session_streaming. apply run_state_after_streaming. }
  assert (enabled late_chunk (state_after session_streaming) = true) as Hen.
  { vm_compute. reflexivity. }
  assert (closures (state_after session_streaming) !! 0
          = Some (messages (state_after session_streaming))) as Hown.
  { vm_compute. reflexivity. }
  split; [exact Hreach|]. split; [exact Hen|]. split; [exact Hown|].
  destruct (transcript_append_only (state_after session_streaming) late_chunk
              Hreach Hen) as [_ Hpres].
  { intros k result error [= <- _ _] _. exact Hown. }
  split; [|exact Hpres].
  exists [startGameMessage], "A", "B". split; [reflexivity|].
  vm_compute. reflexivity.
Defined.

(** ** C4: Start Game without the extension *)

(** C4.  When [aiRef.current] is null, clicking Start Game only shows the
    install prompt: no [generateText] call, the transcript, the
    game-started flag and every other state cell are unchanged. *)
Theorem startGame_without_extension (st : State) (throws : bool) :
  aiRef st = None →
  let st' := react (ev_startGame throws) st in
  st' = toast installationToast st ∧
  toasts st' = toasts st ++ [toast_custom_InstallationToast "window-ai-not-detected"] ∧
  requests st' = requests st ∧
  messages st' = messages st ∧
  isGameStarted st' = isGameStarted st ∧
  closures st' = closures st ∧
  loading st' = loading st ∧
  inputValue st' = inputValue st.
Proof.
  intros Hai. simpl. unfold startGame. by rewrite Hai.
Qed.

Lemma startGame_without_extension_witness :
  aiRef (state_after session_absent) = None ∧
  enabled (ev_startGame false) (state_after session_absent) = true ∧
  requests (react (ev_startGame false) (state_after session_absent)) = [] ∧
  messages (react (ev_startGame false) (state_after session_absent)) = [] ∧
  isGameStarted (react (ev_startGame false) (state_after session_absent)) = false ∧
  toasts (react (ev_startGame false) (state_after session_absent))
  = [installationToast; installationToast].
Proof.
  assert (aiRef (state_after session_absent) = None) as Hai.
  { vm_compute. reflexivity. }
  split; [exact Hai|]. split; [vm_compute; reflexivity|].
  destruct (startGame_without_extension (state_after session_absent) false Hai)
    as (_ & Ht & Hr & Hm & Hg & _).
  rewrite Ht, Hr, Hm, Hg. vm_compute. repeat split.
Defined.

(** ** C5: generation failure *)

(** C5.  A callback that reports an error (a non-empty error string) shows
    the streaming error toast and returns: transcript, working transcripts
    and request log are unchanged.  When [generateText] throws, the
    [catch] block shows the generation error toast and nothing else: the
    transcript and the request log are those of the same send without the
    failure, so the failing send made one call and no second one.  No
    callback, with or without error, ever issues a request. *)
Theorem generation_failure_is_terminal
    (st : State) (k : nat) (result : option MessageOutput) (error : option string)
    (messageInput : string) :
  truthy error = true →
  (let st' := state_of (onStreamResult k result error st) in
   onStreamResult k result error st
   = Returns (toast streamingFailedToast (setLoading false st)) ∧
   toasts st' = toasts st ++ [toast_error "window.ai streaming completion failed."] ∧
   messages st' = messages st ∧
   closures st' = closures st ∧
   requests st' = requests st) ∧
  (let failed := handleNewMessage true messageInput st in
   let succeeded := handleNewMessage false messageInput st in
   toasts failed = toasts st ++ [toast_error "window.ai generation completion failed."] ∧
   messages failed = messages succeeded ∧
   messages failed = messages st ++ [ {| role := user; content := messageInput |} ] ∧
   closures failed = closures succeeded ∧
   requests failed = requests succeeded ∧
   length (requests failed) ≤ S (length (requests st))) ∧
  (∀ k' result' error',
     requests (react (ev_stream k' result' error') st) = requests st).
Proof.
  intros He. split; [|split].
  - rewrite onStreamResult_error by done. by simpl.
  - simpl. rewrite !handleNewMessage_messages, !handleNewMessage_closures,
      !handleNewMessage_requests, handleNewMessage_toasts.
    destruct (aiRef st); repeat split; try done.
    + rewrite length_app; simpl; lia.
    + lia.
  - intros k' result' error'. apply onStreamResult_requests.
Qed.

Lemma generation_failure_is_terminal_witness :
  truthy (Some "NOT_AUTHENTICATED") = true ∧
  messages (state_of (onStreamResult 0 None (Some "NOT_AUTHENTICATED")
                        (state_after session_streaming)))
  = messages (state_after session_streaming) ∧
  requests (state_of (onStreamResult 0 None (Some "NOT_AUTHENTICATED")
                        (state_after session_streaming)))
  = requests (state_after session_streaming).
Proof.
  assert (truthy (Some "NOT_AUTHENTICATED") = true) as He.
  { vm_compute. reflexivity. }
  split; [exact He|].
  destruct (generation_failure_is_terminal (state_after session_streaming) 0 None
              (Some "NOT_AUTHENTICATED") "go" He)
    as ((_ & _ & Hm & _ & Hr) & _ & _).
  split; [exact Hm|exact Hr].
Defined.

(** ** C6: the detection probe *)

(** Only [init] writes [aiRef.current] and ends the pending probe. *)
Lemma react_aiRef_frame ev st :
  (∀ probe, ev ≠ ev_probe probe) →
  aiRef (react ev st) = aiRef st ∧ initPending (react ev st) = initPending st ∧
  probes_settled [ev] = [].
Proof.
  intros Hev. destruct ev as [probe|value|throws|throws|k result error|]; simpl.
  - by destruct (Hev probe).
  - done.
  - unfold handleSendMessage. case_decide; [done|].
    destruct (aiRef st) eqn:Hai; [|done].
    destruct (handleNewMessage_frame throws (inputValue st) st) as (-> & _ & _ & -> & _).
    by rewrite Hai.
  - unfold startGame. destruct (aiRef st) eqn:Hai; [|done]. simpl.
    destruct (handleNewMessage_frame throws "Start Game" st) as (-> & _ & _ & -> & _).
    by rewrite Hai.
  - unfold onStreamResult. destruct (truthy error); [done|].
    destruct result as [result|]; [|done]. simpl.
    destruct (closures st !! k) as [um|]; [|done].
    by destruct (um !! (length um - 1)).
  - done.
Qed.




(** ** C7: the streaming options of every call *)

(** C7.  Every [generateText] call made in a reachable state carries a
    message list and the options object with [temperature] 0.7,
    [maxTokens] 1000 and an [onStreamResult] callback, the callback of an
    existing activation. *)
Theorem every_request_has_streaming_options (st : State) (r : Request) :
  reachable st →
  r ∈ requests st →
  ∃ sent k,
    r = {| input_messages := sent;
           options := {| temperature := 0.7%Q; maxTokens := 1000%Z;
                         onStreamResult_closure := k |} |} ∧
    is_Some (closures st !! k).
Proof.
  intros Hreach Hr.
  pose proof (inv_requests st (reachable_Invariant st Hreach)) as Hreqs.
  destruct (proj1 (Forall_forall _ _) Hreqs r Hr) as (sent & k & Hin & _ & Hopt & Hk).
  exists (systemMessage :: sent), k. split.
  - destruct r as [ms os]; simpl in *. by rewrite Hin, Hopt.
  - by apply lookup_lt_is_Some.
Qed.

Lemma every_request_has_streaming_options_witness :
  reachable (state_after session_overlapping) ∧
  length (requests (state_after session_overlapping)) = 2 ∧
  ∀ r, r ∈ requests (state_after session_overlapping) →
       temperature (options r) = 0.7%Q ∧ maxTokens (options r) = 1000%Z.
Proof.
  assert (reachable (state_after session_overlapping)) as Hreach.
  { exists session_overlapping. apply run_state_after_overlapping. }
  split; [exact Hreach|]. split; [vm_compute; reflexivity|].
  intros r Hr.
  destruct (every_request_has_streaming_options
              (state_after session_overlapping) r Hreach Hr)
    as (sent & k & -> & _).
  split; reflexivity.
Defined.

(** ** C8: submitting the empty input *)

(** C8.  A submit with the empty input string changes nothing: transcript,
    request log, loading flag, input value and every other part of the
    state are exactly as before. *)
Theorem empty_submit_is_noop (st : State) (throws : bool) :
  inputValue st = EmptyString →
  react (ev_submit throws) st = st ∧
  messages (react (ev_submit throws) st) = messages st ∧
  requests (react (ev_submit throws) st) = requests st ∧
  loading (react (ev_submit throws) st) = loading st ∧
  inputValue (react (ev_submit throws) st) = inputValue st.
Proof.
  intros Hinput. simpl. unfold handleSendMessage. by rewrite decide_True.
Qed.

Lemma empty_submit_is_noop_witness :
  inputValue (state_after session_streaming) = EmptyString ∧
  enabled (ev_submit false) (state_after session_streaming) = true ∧
  react (ev_submit false) (state_after session_streaming)
  = state_after session_streaming.
Proof.
  assert (inputValue (state_after session_streaming) = EmptyString) as Hinput.
  { vm_compute. reflexivity. }
  split; [exact Hinput|]. split; [vm_compute; reflexivity|].
  exact (proj1 (empty_submit_is_noop (state_after session_streaming) false Hinput)).
Defined.

(** ** C9: roles in the transcript *)

(** C9.  In every reachable state each transcript message has role user
    or assistant, so none has role system; the system prompt occurs only
    as the first message of each request, in front of messages that are
    user or assistant messages. *)
Theorem transcript_has_no_system_message (st : State) :
  reachable st →
  (∀ m, m ∈ messages st → role m = user ∨ role m = assistant) ∧
  (∀ m, m ∈ messages st → role m ≠ system) ∧
  (∀ r, r ∈ requests st →
     ∃ sent,
       input_messages r = {| role := system; content := systemPrompt |} :: sent ∧
       ∀ m, m ∈ sent → role m = user ∨ role m = assistant).
Proof.
  intros Hreach. pose proof (reachable_Invariant st Hreach) as Hinv.
  pose proof (proj1 (Forall_forall _ _) (inv_roles st Hinv)) as Hroles.
  split; [exact Hroles|]. split.
  - intros m Hm Hsys. destruct (Hroles m Hm) as [Hr|Hr]; by rewrite Hsys in Hr.
  - intros r Hr.
    destruct (proj1 (Forall_forall _ _) (inv_requests st Hinv) r Hr)
      as (sent & k & Hin & Hsent & _).
    exists sent. split; [exact Hin|]. by apply Forall_forall.
Qed.

Lemma transcript_has_no_system_message_witness :
  reachable (state_after session_overlapping) ∧
  length (messages (state_after session_overlapping)) = 3 ∧
  ∀ m, m ∈ messages (state_after session_overlapping) → role m ≠ system.
Proof.
  assert (reachable (state_after session_overlapping)) as Hreach.
  { exists session_overlapping. apply run_state_after_overlapping. }
  split; [exact Hreach|]. split; [vm_compute; reflexivity|].
  exact (proj1 (proj2 (transcript_has_no_system_message
                         (state_after session_overlapping) Hreach))).
Defined.

(** ** C10: the first message is not displayed *)

Lemma render_transcript_lookup st i :
  transcript (render st) !! i = renderMessage i <$> messages st !! i.
Proof. simpl. apply list_lookup_imap. Qed.

(** C10.  For every transcript, the element rendered for the message at
    index 0 is the empty [div], which displays nothing, and the element
    rendered for a message at any later index displays that message's
    content; one element is rendered per message.  In every reachable
    state the message at index 0 is the user message [Start Game]. *)
Theorem first_message_not_displayed (st : State) :
  length (transcript (render st)) = length (messages st) ∧
  (∀ m, messages st !! 0 = Some m →
     transcript (render st) !! 0 = Some div_empty ∧ displayed div_empty = None) ∧
  (∀ i m, i ≠ 0 → messages st !! i = Some m →
     ∃ e, transcript (render st) !! i = Some e ∧ displayed e = Some (content m)) ∧
  (reachable st →
     ∀ m, messages st !! 0 = Some m → m = {| role := user; content := "Start Game" |}).
Proof.
  split; [simpl; apply length_imap|]. split; [|split].
  - intros m Hm. by rewrite render_transcript_lookup, Hm.
  - intros i m Hi Hm. rewrite render_transcript_lookup, Hm. simpl.
    unfold renderMessage. rewrite decide_False by done. by eexists.
  - intros Hreach m Hm.
    apply (inv_head st (reachable_Invariant st Hreach)).
    by rewrite head_lookup.
Qed.

Lemma first_message_not_displayed_witness :
  reachable (state_after session_overlapping) ∧
  displayed <$> transcript (render (state_after session_overlapping))
  = [None; Some "A"; Some "go"] ∧
  messages (state_after session_overlapping) !! 0 = Some startGameMessage.
Proof.
  assert (reachable (state_after session_overlapping)) as Hreach.
  { exists session_overlapping. apply run_state_after_overlapping. }
  split; [exact Hreach|]. split; [vm_compute; reflexivity|].
  destruct (first_message_not_displayed (state_after session_overlapping))
    as (_ & _ & _ & Hfirst).
  destruct (messages (state_after session_overlapping) !! 0) as [m|] eqn:Hm.
  - by rewrite (Hfirst Hreach m eq_refl).
  - vm_compute in Hm. discriminate Hm.
Defined.

(** * Further properties of the handlers *)

(** ** The callback *)

(** X1.  In every reachable state a callback returns normally, whatever
    it is called with: the working transcript it reads is never empty, so
    reading the role of its last message cannot throw. *)
Theorem onStreamResult_never_throws
    (st : State) (k : nat) (result : option MessageOutput) (error : option string) :
  reachable st →
  ∃ st', onStreamResult k result error st = Returns st'.
Proof.
  intros Hreach. pose proof (reachable_Invariant st Hreach) as Hinv.
  destruct (truthy error) eqn:He.
  { eexists. by apply onStreamResult_error. }
  destruct result as [result|].
  2: { eexists. by apply onStreamResult_no_result. }
  destruct (closures st !! k) as [updatedMessages|] eqn:Hk.
  2: { eexists. unfold onStreamResult. rewrite He; simpl. by rewrite Hk. }
  assert (closure_ok updatedMessages) as Hok.
  { eapply Forall_lookup_1; [apply (inv_closures st Hinv)|exact Hk]. }
  destruct (closure_ok_snoc _ Hok) as (earlier & lastMessage & ->).
  eexists. by apply onStreamResult_chunk.
Qed.

Lemma onStreamResult_never_throws_witness :
  reachable (state_after session_overlapping) ∧
  ∃ st', onStreamResult 1 (chunk "C") None (state_after session_overlapping)
         = Returns st'.
Proof.
  assert (reachable (state_after session_overlapping)) as Hreach.
  { exists session_overlapping. apply run_state_after_overlapping. }
  split; [exact Hreach|].
  exact (onStreamResult_never_throws (state_after session_overlapping) 1
           (chunk "C") None Hreach).
Defined.

(** X2.  The callback looks at its [error] argument only through its
    truthiness: two errors that are both absent or empty, or both
    non-empty, lead to the same state, so the text of a reported error is
    neither shown nor stored. *)
Theorem onStreamResult_error_text_ignored
    (st : State) (k : nat) (result : option MessageOutput)
    (error1 error2 : option string) :
  truthy error1 = truthy error2 →
  onStreamResult k result error1 st = onStreamResult k result error2 st.
Proof.
  intros He. unfold onStreamResult. by rewrite He.
Qed.

Lemma onStreamResult_error_text_ignored_witness :
  truthy (Some EmptyString) = truthy None ∧
  onStreamResult 0 (chunk "B") (Some EmptyString) (state_after session_streaming)
  = onStreamResult 0 (chunk "B") None (state_after session_streaming).
Proof.
  assert (truthy (Some EmptyString) = truthy None) as He.
  { vm_compute. reflexivity. }
  split; [exact He|].
  exact (onStreamResult_error_text_ignored (state_after session_streaming) 0
           (chunk "B") (Some EmptyString) None He).
Defined.

(** X3.  Every callback invocation, with an error, with a result or with
    neither, clears the loading flag and leaves the input value and the
    game-started flag alone; so once the game is started the form shows an
    enabled button labelled Send after the first callback already. *)
Theorem callback_reenables_form
    (st : State) (k : nat) (result : option MessageOutput) (error : option string) :
  let st' := react (ev_stream k result error) st in
  loading st' = false ∧
  inputValue st' = inputValue st ∧
  isGameStarted st' = isGameStarted st ∧
  (isGameStarted st = true →
     control (render st') = chat_form (inputValue st) false "Send").
Proof.
  assert (loading (react (ev_stream k result error) st) = false ∧
          inputValue (react (ev_stream k result error) st) = inputValue st ∧
          isGameStarted (react (ev_stream k result error) st) = isGameStarted st)
    as (Hl & Hi & Hg).
  { simpl. unfold onStreamResult. destruct (truthy error); [done|].
    destruct result as [result|]; [|done]. simpl.
    destruct (closures st !! k) as [um|]; [|done].
    by destruct (um !! (length um - 1)). }
  simpl. split; [exact Hl|]. split; [exact Hi|]. split; [exact Hg|].
  intros Hstarted. unfold render; simpl. simpl in Hl, Hi, Hg.
  by rewrite Hg, Hstarted, Hl, Hi.
Qed.

(** ** Requests, callbacks and working transcripts *)

Lemma prefix_appendChunk sent earlier lastMessage result :
  (∃ history messageInput,
     sent = history ++ [ {| role := user; content := messageInput |} ]) →
  sent `prefix_of` (earlier ++ [lastMessage]) →
  sent `prefix_of` appendChunk (earlier ++ [lastMessage]) lastMessage result.
Proof.
  intros (history & messageInput & ->) Hprefix.
  destruct (decide (role lastMessage = user)) as [Hu|Hu].
  - rewrite appendChunk_user by done. by apply prefix_app_r.
  - rewrite appendChunk_not_user by done.
    destruct Hprefix as [rest Hrest].
    destruct rest as [|x rest' _] using rev_ind.
    + rewrite app_nil_r in Hrest. apply app_inj_tail in Hrest as [_ ->].
      by destruct Hu.
    + rewrite app_assoc in Hrest. apply app_inj_tail in Hrest as [-> _].
      rewrite <- app_assoc. by eexists.
Qed.

Lemma Bookkeeping_mount : Bookkeeping mount.
Proof. by split. Qed.

(** A state that differs from a well-kept one in no bookkept field. *)
Lemma Bookkeeping_same st st' :
  Bookkeeping st →
  isGameStarted st' = isGameStarted st →
  (isGameStarted st = true → aiRef st' ≠ None) →
  messages st' = messages st →
  closures st' = closures st →
  requests st' = requests st →
  rendered st' = rendered st →
  Bookkeeping st'.
Proof.
  intros [Hns Hs Hrq Hrd Hlen Hcb Hpre] Hg Hai Hm Hc Hr Hrd'.
  split; rewrite ?Hg, ?Hm, ?Hc, ?Hr, ?Hrd'; try done.
Qed.

(** The state after one more activation that issued its request. *)
Lemma Bookkeeping_send st st' messageInput :
  Bookkeeping st →
  isGameStarted st' = true →
  aiRef st' ≠ None →
  closures st'
  = closures st ++ [rendered st ++ [ {| role := user; content := messageInput |} ]] →
  requests st'
  = requests st ++
      [ {| input_messages :=
             systemMessage
               :: rendered st ++ [ {| role := user; content := messageInput |} ];
           options := streamingOptions (length (closures st)) |} ] →
  Bookkeeping st'.
Proof.
  intros [Hns Hs Hrq Hrd Hlen Hcb Hpre] Hg Hai Hc Hr.
  split; rewrite ?Hg, ?Hc, ?Hr; try done.
  - intros _ Hnil. by apply app_eq_nil in Hnil as [_ ?].
  - rewrite !length_app. simpl. lia.
  - intros i r Hi. apply lookup_app_Some in Hi as [Hi|[Hge Hi]]; [by eapply Hcb|].
    destruct (i - length (requests st)) as [|n] eqn:Hn; [|done].
    injection Hi as <-. simpl. lia.
  - intros i r um Hi Hum.
    apply lookup_app_Some in Hi as [Hi|[Hge Hi]].
    + pose proof (lookup_lt_Some _ _ _ Hi) as Hlt.
      rewrite lookup_app_l in Hum by lia. by eapply Hpre.
    + destruct (i - length (requests st)) as [|n] eqn:Hn; [|done].
      injection Hi as <-.
      rewrite lookup_app_r in Hum by lia.
      replace (i - length (closures st)) with 0 in Hum by lia.
      injection Hum as <-. by exists (rendered st), messageInput.
Qed.

Lemma Bookkeeping_onStreamResult k result error st :
  Invariant st → Bookkeeping st →
  Bookkeeping (state_of (onStreamResult k result error st)).
Proof.
  intros Hinv Hbk. destruct (truthy error) eqn:He.
  { rewrite onStreamResult_error by done. apply (Bookkeeping_same st); try done; apply (bk_started st Hbk). }
  destruct result as [result|].
  2: { rewrite onStreamResult_no_result by done. apply (Bookkeeping_same st); try done; apply (bk_started st Hbk). }
  destruct (closures st !! k) as [updatedMessages|] eqn:Hk.
  2: { unfold onStreamResult. rewrite He; simpl. rewrite Hk.
       apply (Bookkeeping_same st); try done; apply (bk_started st Hbk). }
  assert (closure_ok updatedMessages) as Hok.
  { eapply Forall_lookup_1; [apply (inv_closures st Hinv)|exact Hk]. }
  destruct (closure_ok_snoc _ Hok) as (earlier & lastMessage & ->).
  rewrite (onStreamResult_chunk st k result error earlier lastMessage) by done.
  destruct Hbk as [Hns Hs Hrq Hrd Hlen Hcb Hpre].
  assert (isGameStarted st = true) as Hstarted.
  { destruct (isGameStarted st) eqn:Hg; [done|].
    destruct (Hns eq_refl) as (_ & Hnil & _). by rewrite Hnil in Hk. }
  split; simpl.
  - by rewrite Hstarted.
  - done.
  - done.
  - done.
  - by rewrite length_insert.
  - done.
  - intros i r um Hi Hum. destruct (decide (k = i)) as [->|Hne].
    + rewrite list_lookup_insert_eq in Hum by (by eapply lookup_lt_Some).
      injection Hum as <-.
      destruct (Hpre i r _ Hi Hk) as (history & messageInput & Hin & Hprefix).
      exists history, messageInput. split; [done|].
      apply prefix_appendChunk; [by eexists _, _|done].
    + rewrite list_lookup_insert_ne in Hum by done. by eapply Hpre.
Qed.

Lemma Bookkeeping_react ev st :
  reachable st → Bookkeeping st → enabled ev st = true → Bookkeeping (react ev st).
Proof.
  intros Hreach Hbk Hen. pose proof (reachable_Invariant st Hreach) as Hinv.
  destruct ev as [probe|value|throws|throws|k result error|]; simpl.
  - simpl in Hen. pose proof (inv_pending st Hinv Hen) as Hnone.
    apply (Bookkeeping_same st); try done.
    + unfold init; simpl. by destruct probe.
    + intros Hg. by destruct (bk_started st Hbk Hg).
    + unfold init; simpl. by destruct probe.
    + unfold init; simpl. by destruct probe.
    + unfold init; simpl. by destruct probe.
    + unfold init; simpl. by destruct probe.
  - apply (Bookkeeping_same st); try done. apply (bk_started st Hbk).
  - simpl in Hen. destruct (isGameStarted st) eqn:Hg; [|done].
    pose proof (bk_started st Hbk Hg) as Hai.
    unfold handleSendMessage. case_decide; [done|].
    destruct (aiRef st) eqn:Hst; [|done].
    destruct (handleNewMessage_frame throws (inputValue st) st)
      as (Hai' & Hg' & _).
    apply (Bookkeeping_send st _ (inputValue st)); try done.
    + by rewrite Hg'.
    + by rewrite Hai', Hst.
    + apply handleNewMessage_closures.
    + rewrite handleNewMessage_requests. by rewrite Hst.
  - unfold startGame. destruct (aiRef st) eqn:Hst.
    + destruct (handleNewMessage_frame throws "Start Game" st) as (Hai' & _).
      apply (Bookkeeping_send st _ "Start Game"); simpl; try done.
      * by rewrite Hai', Hst.
      * apply handleNewMessage_closures.
      * rewrite handleNewMessage_requests. by rewrite Hst.
    + apply (Bookkeeping_same st); try done. apply (bk_started st Hbk).
  - by apply Bookkeeping_onStreamResult.
  - destruct Hbk as [Hns Hs Hrq Hrd Hlen Hcb Hpre]. split; simpl; try done.
    intros Hg. by destruct (Hns Hg) as (? & _).
Qed.

Lemma reachable_Bookkeeping st : reachable st → Bookkeeping st.
Proof.
  revert st. apply reachable_ind; [apply Bookkeeping_mount|].
  intros st ev Hreach Hbk Hen. by apply Bookkeeping_react.
Qed.

(** X4.  In every reachable state the game-started flag is set exactly
    when the transcript is non-empty, and exactly when at least one
    request has been made; and a started game means the extension was
    detected. *)
Theorem started_iff_transcript_nonempty (st : State) :
  reachable st →
  (isGameStarted st = true ↔ messages st ≠ []) ∧
  (isGameStarted st = true ↔ requests st ≠ []) ∧
  (isGameStarted st = true → aiRef st ≠ None).
Proof.
  intros Hreach.
  pose proof (reachable_Invariant st Hreach) as Hinv.
  pose proof (reachable_Bookkeeping st Hreach) as Hbk.
  split; [|split].
  - split; [apply (inv_started st Hinv)|].
    intros Hne. destruct (isGameStarted st) eqn:Hg; [done|].
    by destruct (bk_not_started st Hbk Hg) as (? & _).
  - split; [apply (bk_requested st Hbk)|].
    intros Hne. destruct (isGameStarted st) eqn:Hg; [done|].
    by destruct (bk_not_started st Hbk Hg) as (_ & _ & ?).
  - apply (bk_started st Hbk).
Qed.

Lemma started_iff_transcript_nonempty_witness :
  reachable (state_after session_absent) ∧
  isGameStarted (state_after session_absent) = false ∧
  (isGameStarted (state_after session_absent) = true
   ↔ messages (state_after session_absent) ≠ []).
Proof.
  assert (reachable (state_after session_absent)) as Hreach.
  { exists session_absent. apply run_state_after_absent. }
  split; [exact Hreach|]. split; [vm_compute; reflexivity|].
  exact (proj1 (started_iff_transcript_nonempty (state_after session_absent) Hreach)).
Defined.

(** X5.  In every reachable state there are as many requests as
    activations of [handleNewMessage], and the request at position [i]
    carries the callback of activation [i]: no two requests share a
    callback, hence a working transcript. *)
Theorem each_request_has_its_own_callback (st : State) :
  reachable st →
  length (requests st) = length (closures st) ∧
  (∀ i r, requests st !! i = Some r → onStreamResult_closure (options r) = i) ∧
  (∀ i j ri rj,
     requests st !! i = Some ri → requests st !! j = Some rj →
     onStreamResult_closure (options ri) = onStreamResult_closure (options rj) →
     i = j).
Proof.
  intros Hreach. pose proof (reachable_Bookkeeping st Hreach) as Hbk.
  split; [apply (bk_length st Hbk)|]. split; [apply (bk_callback st Hbk)|].
  intros i j ri rj Hi Hj Heq.
  by rewrite <- (bk_callback st Hbk i ri Hi), <- (bk_callback st Hbk j rj Hj).
Qed.

Lemma each_request_has_its_own_callback_witness :
  reachable (state_after session_overlapping) ∧
  length (requests (state_after session_overlapping)) = 2 ∧
  length (closures (state_after session_overlapping)) = 2.
Proof.
  assert (reachable (state_after session_overlapping)) as Hreach.
  { exists session_overlapping. apply run_state_after_overlapping. }
  split; [exact Hreach|].
  destruct (each_request_has_its_own_callback
              (state_after session_overlapping) Hreach) as (Hlen & _).
  split; [vm_compute; reflexivity|]. rewrite <- Hlen. vm_compute. reflexivity.
Defined.

(** X6.  In every reachable state, the message list sent with a request
    (after the system prompt) ends in the user message of that send and
    is a prefix of the working transcript of the request's callback:
    streaming only adds after what was sent and never rewrites it. *)
Theorem sent_messages_stay_prefix (st : State) (i : nat) (r : Request) :
  reachable st →
  requests st !! i = Some r →
  ∃ updatedMessages history messageInput,
    closures st !! i = Some updatedMessages ∧
    input_messages r
    = {| role := system; content := systemPrompt |}
        :: history ++ [ {| role := user; content := messageInput |} ] ∧
    (history ++ [ {| role := user; content := messageInput |} ])
      `prefix_of` updatedMessages.
Proof.
  intros Hreach Hi. pose proof (reachable_Bookkeeping st Hreach) as Hbk.
  destruct (closures st !! i) as [updatedMessages|] eqn:Hum.
  - destruct (bk_prefix st Hbk i r updatedMessages Hi Hum)
      as (history & messageInput & Hin & Hprefix).
    by exists updatedMessages, history, messageInput.
  - apply lookup_lt_Some in Hi. apply lookup_ge_None in Hum.
    rewrite (bk_length st Hbk) in Hi. lia.
Qed.

Lemma sent_messages_stay_prefix_witness :
  reachable (state_after session_streaming) ∧
  ∃ r updatedMessages,
    requests (state_after session_streaming) !! 0 = Some r ∧
    closures (state_after session_streaming) !! 0 = Some updatedMessages ∧
    input_messages r = [systemMessage; startGameMessage] ∧
    [startGameMessage] `prefix_of` updatedMessages.
Proof.
  assert (reachable (state_after session_streaming)) as Hreach.
  { exists session_streaming. apply run_state_after_streaming. }
  split; [exact Hreach|].
  destruct (requests (state_after session_streaming) !! 0) as [r|] eqn:Hr.
  2: { vm_compute in Hr. discriminate Hr. }
  destruct (sent_messages_stay_prefix (state_after session_streaming) 0 r Hreach Hr)
    as (updatedMessages & history & messageInput & Hum & Hin & Hprefix).
  assert (input_messages r = [systemMessage; startGameMessage]) as Hsent.
  { vm_compute in Hr. injection Hr as <-. vm_compute. reflexivity. }
  exists r, updatedMessages. split; [reflexivity|]. split; [exact Hum|].
  split; [exact Hsent|].
  rewrite Hsent in Hin. injection Hin as Hin. rewrite Hin. exact Hprefix.
Defined.

(** ** The guards of the handlers *)

(** X7.  Once the chat form is on screen the extension is known to be
    present, so in every reachable state a form submit either does
    nothing (empty input) or sends: the install-prompt branch of
    [handleSendMessage] is never taken. *)
Theorem submit_never_shows_install_prompt (st : State) (throws : bool) :
  reachable st →
  enabled (ev_submit throws) st = true →
  aiRef st ≠ None ∧
  react (ev_submit throws) st
  = if decide (inputValue st = EmptyString) then st
    else handleNewMessage throws (inputValue st) st.
Proof.
  intros Hreach Hen. pose proof (reachable_Bookkeeping st Hreach) as Hbk.
  simpl in Hen. destruct (isGameStarted st) eqn:Hg; [|done].
  pose proof (bk_started st Hbk Hg) as Hai. split; [exact Hai|].
  simpl. unfold handleSendMessage. case_decide; [done|].
  by destruct (aiRef st).
Qed.

Lemma submit_never_shows_install_prompt_witness :
  reachable (state_after session_streaming) ∧
  enabled (ev_submit false) (state_after session_streaming) = true ∧
  aiRef (state_after session_streaming) ≠ None.
Proof.
  assert (reachable (state_after session_streaming)) as Hreach.
  { exists session_streaming. apply run_state_after_streaming. }
  assert (enabled (ev_submit false) (state_after session_streaming) = true) as Hen.
  { vm_compute. reflexivity. }
  split; [exact Hreach|]. split; [exact Hen|].
  exact (proj1 (submit_never_shows_install_prompt
                  (state_after session_streaming) false Hreach Hen)).
Defined.

(** X8.  While the detection promise has not settled, [aiRef.current] is
    still null: a Start Game click in that window only shows the install
    prompt and sends nothing, whether or not the extension is installed. *)
Theorem startGame_before_probe_settles (st : State) (throws : bool) :
  reachable st →
  initPending st = true →
  enabled (ev_startGame throws) st = true ∧
  react (ev_startGame throws) st = toast installationToast st.
Proof.
  intros Hreach Hpending.
  pose proof (inv_pending st (reachable_Invariant st Hreach) Hpending) as Hai.
  pose proof (reachable_Bookkeeping st Hreach) as Hbk.
  split.
  - simpl. destruct (isGameStarted st) eqn:Hg; [|done].
    by destruct (bk_started st Hbk Hg).
  - simpl. unfold startGame. by rewrite Hai.
Qed.

Lemma startGame_before_probe_settles_witness :
  reachable mount ∧ initPending mount = true ∧
  requests (react (ev_startGame false) mount) = [] ∧
  toasts (react (ev_startGame false) mount) = [installationToast].
Proof.
  split; [apply reachable_mount|]. split; [reflexivity|].
  destruct (startGame_before_probe_settles mount false reachable_mount eq_refl)
    as [_ ->].
  split; vm_compute; reflexivity.
Defined.

(** X9.  Typing a non-empty text into the form and submitting it, in a
    reachable state: the transcript gains exactly one user message with
    the typed text; one request is made whose message list is the system
    prompt, the transcript of the last render and that message; the new
    activation's working transcript is that same list without the system
    prompt, which is the new transcript when the page was rendered up to
    date; and the form is rendered with an empty input and a disabled
    button labelled Sending. *)
Theorem typed_text_is_sent (st : State) (value : string) (throws : bool) :
  reachable st →
  enabled (ev_change value) st = true →
  value ≠ EmptyString →
  let st' := react (ev_submit throws) (react (ev_change value) st) in
  messages st' = messages st ++ [ {| role := user; content := value |} ] ∧
  requests st'
  = requests st ++
      [ {| input_messages :=
             {| role := system; content := systemPrompt |}
               :: rendered st ++ [ {| role := user; content := value |} ];
           options := streamingOptions (length (closures st)) |} ] ∧
  closures st' !! length (closures st)
  = Some (rendered st ++ [ {| role := user; content := value |} ]) ∧
  (rendered st = messages st →
     closures st' !! length (closures st) = Some (messages st')) ∧
  control (render st') = chat_form EmptyString true "Sending...".
Proof.
  intros Hreach Hen Hvalue. pose proof (reachable_Bookkeeping st Hreach) as Hbk.
  simpl in Hen. destruct (isGameStarted st) eqn:Hg; [|done].
  pose proof (bk_started st Hbk Hg) as Hai.
  assert (react (ev_submit throws) (react (ev_change value) st)
          = handleNewMessage throws value (setInputValue value st)) as ->.
  { simpl. unfold handleSendMessage; simpl. rewrite decide_False by done.
    by destruct (aiRef st). }
  destruct (handleNewMessage_frame throws value (setInputValue value st))
    as (_ & Hg' & _ & _ & Hl & Hi).
  assert (closures (handleNewMessage throws value (setInputValue value st))
            !! length (closures st)
          = Some (rendered st ++ [ {| role := user; content := value |} ])) as Hk.
  { rewrite handleNewMessage_closures. simpl.
    by rewrite lookup_app_r, Nat.sub_diag by lia. }
  cbn zeta. rewrite handleNewMessage_messages, handleNewMessage_requests. simpl.
  split; [done|]. split; [by destruct (aiRef st)|]. split; [exact Hk|]. split.
  - intros Hfresh. by rewrite Hk, Hfresh.
  - unfold render; simpl. simpl in Hg'. by rewrite Hg', Hg, Hl, Hi.
Qed.

Lemma typed_text_is_sent_witness :
  reachable (state_after session_streaming) ∧
  enabled (ev_change "go") (state_after session_streaming) = true ∧
  messages (react (ev_submit false)
              (react (ev_change "go") (state_after session_streaming)))
  = [ startGameMessage; {| role := assistant; content := "A" |};
      {| role := user; content := "go" |} ].
Proof.
  assert (reachable (state_after session_streaming)) as Hreach.
  { exists session_streaming. apply run_state_after_streaming. }
  assert (enabled (ev_change "go") (state_after session_streaming) = true) as Hen.
  { vm_compute. reflexivity. }
  split; [exact Hreach|]. split; [exact Hen|].
  destruct (typed_text_is_sent (state_after session_streaming) "go" false
              Hreach Hen) as (Hm & _); [discriminate|].
  rewrite Hm. vm_compute. reflexivity.
Defined.

(** X10.  A send whose [generateText] call does not throw never shows the
    generation-failed toast, in any state: both callers test
    [aiRef.current] first, so the null dereference inside the [try] block
    is never reached through them.  The only toast such a click or submit
    can show is the install prompt. *)
Theorem no_failure_toast_unless_generateText_throws (st : State) :
  (toasts (react (ev_submit false) st) = toasts st ∨
   toasts (react (ev_submit false) st) = toasts st ++ [installationToast]) ∧
  (toasts (react (ev_startGame false) st) = toasts st ∨
   toasts (react (ev_startGame false) st) = toasts st ++ [installationToast]).
Proof.
  split; simpl.
  - unfold handleSendMessage. case_decide; [by left|].
    destruct (aiRef st) eqn:Hai; [|by right].
    left. rewrite handleNewMessage_toasts. by rewrite Hai.
  - unfold startGame. destruct (aiRef st) eqn:Hai; [|by right].
    left. simpl. rewrite handleNewMessage_toasts. by rewrite Hai.
Qed.

(** ** Streams that overlap *)

Lemma chunks_for_cons k ev evs :
  chunks_for k (ev :: evs) = chunks_for k [ev] ++ chunks_for k evs.
Proof. apply (omap_app _ [ev] evs). Qed.

(** An event that delivers no chunk to activation [k] leaves its working
    transcript alone. *)
Lemma closure_untouched ev st k updatedMessages :
  closures st !! k = Some updatedMessages →
  chunks_for k [ev] = [] →
  closures (react ev st) !! k = Some updatedMessages.
Proof.
  intros Hk Hnone. destruct ev as [probe|value|throws|throws|k' result error|]; simpl.
  - unfold init; simpl. by destruct probe.
  - done.
  - unfold handleSendMessage. case_decide; [done|].
    destruct (aiRef st); [|done].
    rewrite handleNewMessage_closures. by apply lookup_app_l_Some.
  - unfold startGame. destruct (aiRef st); [|done]. simpl.
    rewrite handleNewMessage_closures. by apply lookup_app_l_Some.
  - unfold onStreamResult. unfold chunks_for in Hnone; simpl in Hnone.
    destruct (truthy error); [done|].
    destruct result as [result|]; [|done]. simpl.
    destruct (decide (k' = k)) as [->|Hne]; [done|].
    destruct (closures st !! k') as [um|]; [|done].
    destruct (um !! (length um - 1)); [|done]. simpl.
    by rewrite list_lookup_insert_ne.
  - done.
Qed.

(** A chunk delivered to activation [k] goes through [appendChunk]. *)
Lemma closure_chunk st k result error earlier lastMessage :
  truthy error = false →
  closures st !! k = Some (earlier ++ [lastMessage]) →
  closures (react (ev_stream k (Some result) error) st) !! k
  = Some (appendChunk (earlier ++ [lastMessage]) lastMessage result).
Proof.
  intros He Hk. simpl.
  rewrite (onStreamResult_chunk st k result error earlier lastMessage) by done.
  simpl. apply list_lookup_insert_eq. by apply lookup_lt_Some in Hk.
Qed.

(** Either an event delivers no chunk to [k], or it is one chunk for [k]. *)
Lemma chunks_for_one k ev :
  chunks_for k [ev] = [] ∨
  ∃ result error,
    ev = ev_stream k (Some result) error ∧ truthy error = false ∧
    chunks_for k [ev] = [content (message result)].
Proof.
  destruct ev as [probe|value|throws|throws|k' result error|]; try by left.
  destruct result as [result|]; [|by left].
  unfold chunks_for; simpl.
  destruct (decide (k' = k)) as [->|Hne]; [|by left].
  destruct (truthy error) eqn:He; [by left|].
  right. by exists result, error.
Qed.

Lemma assistant_transcript_accumulates k evs :
  ∀ st st' earlier text,
    run_from st evs = Some st' →
    closures st !! k = Some (earlier ++ [ {| role := assistant; content := text |} ]) →
    closures st' !! k
    = Some (earlier ++
              [ {| role := assistant;
                   content := foldl String.append text (chunks_for k evs) |} ]).
Proof.
  induction evs as [|ev evs IH]; intros st st' earlier text Hrun Hk.
  - injection Hrun as <-. done.
  - simpl in Hrun. destruct (enabled ev st); [|done].
    rewrite chunks_for_cons, foldl_app.
    apply (IH (react ev st)); [done|].
    destruct (chunks_for_one k ev) as [Hnone|(result & error & -> & He & Hone)].
    + rewrite Hnone. simpl. by apply closure_untouched.
    + rewrite Hone. simpl.
      pose proof (closure_chunk st k result error earlier _ He Hk) as Hchunk.
      by rewrite appendChunk_not_user in Hchunk.
Qed.

(** X11.  Whatever else happens in between (other sends, chunks of other
    streams, error callbacks), the working transcript of an activation
    that ends in its user message is unchanged until its first chunk and
    afterwards is that transcript followed by one assistant message whose
    content is the concatenation, in arrival order, of the chunks that
    were delivered to this activation's callback. *)
Theorem working_transcript_accumulates_own_chunks
    (k : nat) (evs : list Event) (st st' : State)
    (earlier : list ChatMessage) (messageInput : string) :
  run_from st evs = Some st' →
  closures st !! k
  = Some (earlier ++ [ {| role := user; content := messageInput |} ]) →
  closures st' !! k
  = Some match chunks_for k evs with
         | [] => earlier ++ [ {| role := user; content := messageInput |} ]
         | first :: more =>
             (earlier ++ [ {| role := user; content := messageInput |} ])
               ++ [ {| role := assistant;
                       content := foldl String.append first more |} ]
         end.
Proof.
  revert st. induction evs as [|ev evs IH]; intros st Hrun Hk.
  - injection Hrun as <-. done.
  - simpl in Hrun. destruct (enabled ev st); [|done]. rewrite chunks_for_cons.
    destruct (chunks_for_one k ev) as [Hnone|(result & error & -> & He & Hone)].
    + rewrite Hnone. simpl. apply (IH (react ev st)); [done|].
      by apply closure_untouched.
    + rewrite Hone. simpl.
      apply (assistant_transcript_accumulates k evs
               (react (ev_stream k (Some result) error) st)); [done|].
      pose proof (closure_chunk st k result error earlier _ He Hk) as Hchunk.
      by rewrite appendChunk_user in Hchunk.
Qed.

Lemma working_transcript_accumulates_own_chunks_witness :
  let evs := [ ev_stream 0 (chunk "A") None; ev_change "go"; ev_submit false;
               ev_stream 0 (chunk "B") None; ev_stream 1 (chunk "X") None;
               ev_stream 0 None (Some "ERR"); ev_stream 0 (chunk "C") None ] in
  let st := state_after [ev_probe (Some window_ai); ev_startGame false] in
  ∃ st',
    run_from st evs = Some st' ∧
    closures st !! 0 = Some [startGameMessage] ∧
    closures st' !! 0
    = Some [startGameMessage; {| role := assistant; content := "ABC" |}].
Proof.
  intros evs st.
  destruct (run_from st evs) as [st'|] eqn:Hrun.
  2: { vm_compute in Hrun. discriminate Hrun. }
  assert (closures st !! 0 = Some ([] ++ [startGameMessage])) as Hk.
  { vm_compute. reflexivity. }
  exists st'. split; [reflexivity|]. split; [exact Hk|].
  rewrite (working_transcript_accumulates_own_chunks 0 evs st st' []
             "Start Game" Hrun Hk).
  vm_compute. reflexivity.
Defined.

(** ** What never goes back *)

Lemma run_from_reachable evs :
  ∀ st st', reachable st → run_from st evs = Some st' → reachable st'.
Proof.
  induction evs as [|ev evs IH]; intros st st' Hreach Hrun; simpl in Hrun.
  - by injection Hrun as <-.
  - destruct (enabled ev st) eqn:Hen; [|done].
    apply (IH (react ev st)); [by apply reachable_react|done].
Qed.

Lemma react_keeps_started ev st :
  isGameStarted st = true → isGameStarted (react ev st) = true.
Proof.
  intros Hg. destruct ev as [probe|value|throws|throws|k result error|]; simpl.
  - unfold init; simpl. by destruct probe.
  - done.
  - unfold handleSendMessage. case_decide; [done|].
    destruct (aiRef st); [|done].
    destruct (handleNewMessage_frame throws (inputValue st) st) as (_ & -> & _).
    done.
  - unfold startGame. by destruct (aiRef st).
  - unfold onStreamResult. destruct (truthy error); [done|].
    destruct result as [result|]; [|done]. simpl.
    destruct (closures st !! k) as [um|]; [|done].
    by destruct (um !! (length um - 1)).
  - done.
Qed.

Lemma react_keeps_detected ev st :
  reachable st → enabled ev st = true → aiRef st ≠ None →
  aiRef (react ev st) = aiRef st.
Proof.
  intros Hreach Hen Hai.
  assert ((∃ probe, ev = ev_probe probe) ∨ (∀ probe, ev ≠ ev_probe probe))
    as [[probe ->]|Hev] by (destruct ev; [left; by eexists|right; done..]).
  - simpl in Hen.
    by destruct (Hai (inv_pending st (reachable_Invariant st Hreach) Hen)).
  - by destruct (react_aiRef_frame ev st Hev) as (-> & _).
Qed.

(** X12.  From a reachable state, along any further events: a started
    game stays started, so the Start Game button never comes back; and a
    detected extension stays detected, [aiRef.current] being written once
    only. *)
Theorem started_and_detected_are_permanent
    (evs : list Event) (st st' : State) :
  reachable st →
  run_from st evs = Some st' →
  (isGameStarted st = true →
     isGameStarted st' = true ∧ control (render st') ≠ start_button) ∧
  (aiRef st ≠ None → aiRef st' = aiRef st).
Proof.
  revert st. induction evs as [|ev evs IH]; intros st Hreach Hrun; simpl in Hrun.
  - injection Hrun as <-. split; [|done].
    intros Hg. split; [done|]. unfold render; simpl. by rewrite Hg.
  - destruct (enabled ev st) eqn:Hen; [|done].
    destruct (IH (react ev st) (reachable_react st ev Hreach Hen) Hrun) as [IHg IHai].
    split.
    + intros Hg. apply IHg. by apply react_keeps_started.
    + intros Hai. rewrite <- (react_keeps_detected ev st Hreach Hen Hai).
      apply IHai. by rewrite (react_keeps_detected ev st Hreach Hen Hai).
Qed.

Lemma started_and_detected_are_permanent_witness :
  reachable (state_after session_streaming) ∧
  run_from (state_after session_streaming)
    [ev_change "go"; ev_submit true; ev_stream 1 None (Some "ERR")]
  = Some (state_after
            (session_streaming
               ++ [ev_change "go"; ev_submit true; ev_stream 1 None (Some "ERR")])) ∧
  isGameStarted
    (state_after
       (session_streaming
          ++ [ev_change "go"; ev_submit true; ev_stream 1 None (Some "ERR")]))
  = true.
Proof.
  assert (reachable (state_after session_streaming)) as Hreach.
  { exists session_streaming. apply run_state_after_streaming. }
  assert (run_from (state_after session_streaming)
            [ev_change "go"; ev_submit true; ev_stream 1 None (Some "ERR")]
          = Some (state_after
                    (session_streaming
                       ++ [ev_change "go"; ev_submit true;
                           ev_stream 1 None (Some "ERR")]))) as Hrun.
  { vm_compute. reflexivity. }
  split; [exact Hreach|]. split; [exact Hrun|].
  destruct (started_and_detected_are_permanent _ _ _ Hreach Hrun) as [Hg _].
  apply Hg. vm_compute. reflexivity.
Defined.

(** ** Start Game with the extension present *)

(** X13.  In a reachable state that shows the Start Game button, a click
    with the extension present starts from an empty page: afterwards the
    transcript is the single user message Start Game, the only request
    made so far carries the system prompt and that message, nothing of
    the transcript is displayed, and the chat form is on screen with an
    empty input and a disabled button labelled Sending. *)
Theorem startGame_with_extension (st : State) (throws : bool) :
  reachable st →
  enabled (ev_startGame throws) st = true →
  aiRef st ≠ None →
  let st' := react (ev_startGame throws) st in
  messages st' = [ {| role := user; content := "Start Game" |} ] ∧
  requests st'
  = [ {| input_messages :=
           [ {| role := system; content := systemPrompt |};
             {| role := user; content := "Start Game" |} ];
         options := streamingOptions 0 |} ] ∧
  isGameStarted st' = true ∧
  transcript (render st') = [div_empty] ∧
  control (render st') = chat_form EmptyString true "Sending...".
Proof.
  intros Hreach Hen Hai. pose proof (reachable_Bookkeeping st Hreach) as Hbk.
  simpl in Hen. destruct (isGameStarted st) eqn:Hg; [done|].
  destruct (bk_not_started st Hbk Hg) as (Hm & Hc & Hr).
  destruct (handleNewMessage_frame throws "Start Game" st)
    as (_ & _ & _ & _ & Hl & Hi).
  assert (react (ev_startGame throws) st
          = setIsGameStarted true (handleNewMessage throws "Start Game" st)) as ->.
  { simpl. unfold startGame. by destruct (aiRef st). }
  unfold render. cbn [messages requests isGameStarted loading inputValue
                      setIsGameStarted transcript control].
  rewrite handleNewMessage_messages, handleNewMessage_requests, Hm, Hc, Hr, Hl, Hi.
  rewrite (bk_rendered st Hbk Hg).
  by destruct (aiRef st).
Qed.

Lemma startGame_with_extension_witness :
  let st := state_after [ev_probe (Some window_ai)] in
  reachable st ∧
  enabled (ev_startGame false) st = true ∧
  aiRef st ≠ None ∧
  messages (react (ev_startGame false) st) = [startGameMessage].
Proof.
  intros st.
  assert (reachable st) as Hreach.
  { exists [ev_probe (Some window_ai)]. vm_compute. reflexivity. }
  assert (enabled (ev_startGame false) st = true) as Hen.
  { vm_compute. reflexivity. }
  assert (aiRef st ≠ None) as Hai.
  { vm_compute. discriminate. }
  split; [exact Hreach|]. split; [exact Hen|]. split; [exact Hai|].
  exact (proj1 (startGame_with_extension st false Hreach Hen Hai)).
Defined.

Lemma callback_reenables_form_witness :
  isGameStarted (state_after session_overlapping) = true ∧
  loading (state_after session_overlapping) = true ∧
  control (render (react (ev_stream 1 None (Some "ERR"))
                     (state_after session_overlapping)))
  = chat_form EmptyString false "Send".
Proof.
  assert (isGameStarted (state_after session_overlapping) = true) as Hg.
  { vm_compute. reflexivity. }
  split; [exact Hg|]. split; [vm_compute; reflexivity|].
  destruct (callback_reenables_form (state_after session_overlapping) 1 None
              (Some "ERR")) as (_ & _ & _ & Hform).
  rewrite (Hform Hg). vm_compute. reflexivity.
Defined.

(** ** The install prompt and the extension *)

Lemma onStreamResult_toasts st k result error :
  toasts (state_of (onStreamResult k result error st))
  = toasts st ++ (if truthy error then [streamingFailedToast] else []).
Proof.
  unfold onStreamResult. destruct (truthy error); [done|]. rewrite app_nil_r.
  destruct result as [result|]; [|done]. simpl.
  destruct (closures st !! k) as [um|]; [|done].
  by destruct (um !! (length um - 1)).
Qed.

Lemma react_detected_toasts ev st :
  reachable st → enabled ev st = true → aiRef st ≠ None →
  ∃ added, toasts (react ev st) = toasts st ++ added ∧ installationToast ∉ added.
Proof.
  intros Hreach Hen Hai.
  assert (∀ t, t ≠ installationToast → installationToast ∉ [t]) as Hone.
  { intros t Ht Hin. apply list_elem_of_singleton in Hin. by destruct Ht. }
  destruct ev as [probe|value|throws|throws|k result error|]; simpl.
  6: { exists []. split; [by rewrite app_nil_r|apply not_elem_of_nil]. }
  - simpl in Hen.
    by destruct (Hai (inv_pending st (reachable_Invariant st Hreach) Hen)).
  - exists []. split; [by rewrite app_nil_r|apply not_elem_of_nil].
  - unfold handleSendMessage. case_decide.
    { exists []. split; [by rewrite app_nil_r|apply not_elem_of_nil]. }
    destruct (aiRef st) eqn:Hst; [|done].
    rewrite handleNewMessage_toasts, Hst. destruct throws.
    + eexists. split; [done|]. by apply Hone.
    + exists []. split; [by rewrite app_nil_r|apply not_elem_of_nil].
  - unfold startGame. destruct (aiRef st) eqn:Hst; [|done]. simpl.
    rewrite handleNewMessage_toasts, Hst. destruct throws.
    + eexists. split; [done|]. by apply Hone.
    + exists []. split; [by rewrite app_nil_r|apply not_elem_of_nil].
  - rewrite onStreamResult_toasts. eexists. split; [done|].
    destruct (truthy error); [by apply Hone|apply not_elem_of_nil].
Qed.

(** X14.  Once the extension is detected, no later event shows the
    install prompt: along any further events from a reachable state with
    [aiRef.current] set, the toasts only grow, and none of the added
    toasts is the install prompt. *)
Theorem no_install_prompt_once_detected
    (evs : list Event) (st st' : State) :
  reachable st →
  aiRef st ≠ None →
  run_from st evs = Some st' →
  ∃ added, toasts st' = toasts st ++ added ∧ installationToast ∉ added.
Proof.
  revert st. induction evs as [|ev evs IH]; intros st Hreach Hai Hrun; simpl in Hrun.
  - injection Hrun as <-. exists []. split; [by rewrite app_nil_r|apply not_elem_of_nil].
  - destruct (enabled ev st) eqn:Hen; [|done].
    destruct (react_detected_toasts ev st Hreach Hen Hai) as (added1 & Ht1 & Hn1).
    destruct (IH (react ev st)) as (added2 & Ht2 & Hn2);
      [by apply reachable_react|by rewrite react_keeps_detected|done|].
    exists (added1 ++ added2). split.
    + by rewrite Ht2, Ht1, app_assoc.
    + by apply not_elem_of_app.
Qed.

Lemma no_install_prompt_once_detected_witness :
  reachable (state_after session_streaming) ∧
  aiRef (state_after session_streaming) ≠ None ∧
  ∃ st' added,
    run_from (state_after session_streaming)
      [ev_change "go"; ev_submit true; ev_stream 1 None (Some "ERR")]
    = Some st' ∧
    toasts st' = toasts (state_after session_streaming) ++ added ∧
    installationToast ∉ added.
Proof.
  assert (reachable (state_after session_streaming)) as Hreach.
  { exists session_streaming. apply run_state_after_streaming. }
  assert (aiRef (state_after session_streaming) ≠ None) as Hai.
  { vm_compute. discriminate. }
  split; [exact Hreach|]. split; [exact Hai|].
  destruct (run_from (state_after session_streaming)
              [ev_change "go"; ev_submit true; ev_stream 1 None (Some "ERR")])
    as [st'|] eqn:Hrun.
  2: { vm_compute in Hrun. discriminate Hrun. }
  destruct (no_install_prompt_once_detected _ _ st' Hreach Hai Hrun)
    as (added & Ht & Hn).
  by exists st', added.
Defined.

(** X15.  When the detection promise has settled with null, nothing the
    player does afterwards ever reaches the extension: along any further
    events no request is made, the transcript stays empty, no working
    transcript is created and the page keeps showing the Start Game
    button. *)
Theorem no_extension_no_request (evs : list Event) (st st' : State) :
  reachable st →
  initPending st = false →
  aiRef st = None →
  run_from st evs = Some st' →
  aiRef st' = None ∧ requests st' = [] ∧ messages st' = [] ∧
  closures st' = [] ∧ control (render st') = start_button.
Proof.
  intros Hreach Hpending Hai Hrun.
  assert (aiRef st' = None ∧ initPending st' = false) as [Hai' _].
  { clear Hreach. revert st Hpending Hai Hrun.
    induction evs as [|ev evs IH]; intros st Hpending Hai Hrun; simpl in Hrun.
    - by injection Hrun as <-.
    - destruct (enabled ev st) eqn:Hen; [|done].
      assert (∀ probe, ev ≠ ev_probe probe) as Hev.
      { intros probe ->. simpl in Hen. by rewrite Hpending in Hen. }
      destruct (react_aiRef_frame ev st Hev) as (Hai1 & Hp1 & _).
      apply (IH (react ev st)); [by rewrite Hp1|by rewrite Hai1|done]. }
  pose proof (run_from_reachable evs st st' Hreach Hrun) as Hreach'.
  pose proof (reachable_Bookkeeping st' Hreach') as Hbk.
  assert (isGameStarted st' = false) as Hg.
  { destruct (isGameStarted st') eqn:Hg; [|done].
    by destruct (bk_started st' Hbk Hg). }
  destruct (bk_not_started st' Hbk Hg) as (Hm & Hc & Hr).
  repeat split; try done. unfold render; simpl. by rewrite Hg.
Qed.

Lemma no_extension_no_request_witness :
  reachable (state_after session_absent) ∧
  initPending (state_after session_absent) = false ∧
  aiRef (state_after session_absent) = None ∧
  ∃ st',
    run_from (state_after session_absent)
      [ev_startGame false; ev_startGame true] = Some st' ∧
    requests st' = [] ∧ messages st' = [].
Proof.
  assert (reachable (state_after session_absent)) as Hreach.
  { exists session_absent. apply run_state_after_absent. }
  assert (initPending (state_after session_absent) = false) as Hpending.
  { vm_compute. reflexivity. }
  assert (aiRef (state_after session_absent) = None) as Hai.
  { vm_compute. reflexivity. }
  split; [exact Hreach|]. split; [exact Hpending|]. split; [exact Hai|].
  destruct (run_from (state_after session_absent)
              [ev_startGame false; ev_startGame true]) as [st'|] eqn:Hrun.
  2: { vm_compute in Hrun. discriminate Hrun. }
  destruct (no_extension_no_request _ _ st' Hreach Hpending Hai Hrun)
    as (_ & Hr & Hm & _).
  by exists st'.
Defined.

(** ** What a send puts in its request *)

(** X17.  With the extension present, a send issues exactly one request:
    the request log grows by one entry whose message list is the system
    prompt, then the transcript of the last render, then a new user
    message holding the input, and whose callback is the new activation's.
    When the page was rendered up to date, that is the entire prior
    transcript followed by the new user message. *)
Theorem send_issues_one_request (st : State) (throws : bool) :
  aiRef st ≠ None →
  let request_for messageInput :=
    {| input_messages :=
         {| role := system; content := systemPrompt |}
           :: rendered st ++ [ {| role := user; content := messageInput |} ];
       options := streamingOptions (length (closures st)) |} in
  (∀ messageInput,
     requests (handleNewMessage throws messageInput st)
     = requests st ++ [request_for messageInput]) ∧
  (inputValue st ≠ EmptyString →
     requests (react (ev_submit throws) st)
     = requests st ++ [request_for (inputValue st)]) ∧
  requests (react (ev_startGame throws) st)
  = requests st ++ [request_for "Start Game"] ∧
  (rendered st = messages st →
   ∀ messageInput,
     input_messages (request_for messageInput)
     = {| role := system; content := systemPrompt |}
         :: messages st ++ [ {| role := user; content := messageInput |} ]).
Proof.
  intros Hai request_for.
  assert (∀ messageInput,
            requests (handleNewMessage throws messageInput st)
            = requests st ++ [request_for messageInput]) as Hsend.
  { intros messageInput. rewrite handleNewMessage_requests.
    by destruct (aiRef st). }
  split; [exact Hsend|]. split; [|split].
  - intros Hinput. simpl. unfold handleSendMessage.
    rewrite decide_False by done. destruct (aiRef st); [apply Hsend|done].
  - simpl. unfold startGame. destruct (aiRef st); [apply Hsend|done].
  - intros Hfresh messageInput. simpl. by rewrite Hfresh.
Qed.

Lemma send_issues_one_request_witness :
  let st := state_after (session_streaming ++ [ev_change "go"]) in
  aiRef st ≠ None ∧
  enabled (ev_submit false) st = true ∧
  inputValue st ≠ EmptyString ∧
  requests (react (ev_submit false) st)
  = requests st ++
      [ {| input_messages :=
             [ systemMessage; startGameMessage;
               {| role := assistant; content := "A" |};
               {| role := user; content := "go" |} ];
           options := streamingOptions 1 |} ].
Proof.
  intros st.
  assert (aiRef st ≠ None) as Hai.
  { vm_compute. discriminate. }
  assert (inputValue st ≠ EmptyString) as Hinput.
  { vm_compute. discriminate. }
  split; [exact Hai|]. split; [vm_compute; reflexivity|]. split; [exact Hinput|].
  destruct (send_issues_one_request st false Hai) as (_ & Hsubmit & _).
  rewrite (Hsubmit Hinput). vm_compute. reflexivity.
Defined.
